(** * Parallel quicksort over a lock-free stack with hazard pointers

    A shallow embedding of [lfs_hazard.hpp] (the lock-free stack, the
    hazard-pointer table and the deferred-reclamation list) and of
    [sorter.hpp] (the sorter that uses the stack as its work queue).

    The embedding follows one thread of control through the code.  Every
    other thread is visible only through what it has left in the shared
    objects: the owner ids and published addresses in the hazard table and
    the entries of the reclamation list, which are arbitrary in the states
    the theorems quantify over.  With no other thread writing in between,
    each compare-and-swap loop of the source succeeds at its first
    iteration, which is how the loops are embedded.  The worker threads that
    the sorter creates are counted, and do not take a chunk before the
    sorter is destroyed: the thread that calls the sort does all the work,
    which is the execution the progress guarantee of the sorter is about. *)

From Stdlib Require Import ZArith Lia Sorted.
From stdpp Require Import base option list gmap.

(** ** Outcomes of effectful code

    A call either returns a value, throws a C++ exception (the state reached
    when the exception leaves the call is kept: an exception does not undo
    what was done before it), runs into undefined behaviour, or exhausts the
    fuel that bounds the recursion of the embedding. *)

(** [runtime_error_no_hazard_pointers] is the [std::runtime_error] that
    [hp_owner::hp_owner] throws, the resource-exhaustion condition of the
    specification; the other is what [set_value] throws on a promise that
    holds a value. *)
Inductive exn : Type :=
  | runtime_error_no_hazard_pointers
  | future_error_promise_already_satisfied.

Inductive outcome (S R : Type) : Type :=
  | Ret (r : R) (s : S)
  | Throw (e : exn) (s : S)
  | Undefined
  | OutOfFuel.
Arguments Ret {S R} r s.
Arguments Throw {S R} e s.
Arguments Undefined {S R}.
Arguments OutOfFuel {S R}.

Definition bind {S A B} (m : S -> outcome S A) (k : A -> S -> outcome S B)
  : S -> outcome S B :=
  fun s =>
    match m s with
    | Ret a s' => k a s'
    | Throw e s' => Throw e s'
    | Undefined => Undefined
    | OutOfFuel => OutOfFuel
    end.

Notation "'let*' x ':=' m 'in' k" := (bind m (fun x => k))
  (at level 10, x name, m at level 100, k at level 200, only parsing).

(** ** lfs_hazard.hpp *)

Abbreviation thread_id := nat (only parsing).
Abbreviation addr := nat (only parsing).

(** [unsigned const max_hazard_pointers = 100;] *)
Definition max_hazard_pointers : nat := 100.
Arguments max_hazard_pointers : simpl never.

(** [struct hazard_pointer]: [None] is the default-constructed
    [thread::id()] (no owner), respectively [nullptr]. *)
Record hazard_pointer : Type := HazardPointer {
  hp_id : option thread_id;
  hp_pointer : option addr }.

Section lock_free_stack.
Context {A : Type}.

(** [lock_free_stack<T>::node]; [node_data] is the [shared_ptr<T>], empty
    once [pop] has swapped the payload out. *)
Record node : Type := Node {
  node_data : option A;
  node_next : option addr }.

(** The shared objects: [head] of the stack, the global table
    [hazard_pointers], the [thread_local static hp_owner hazard] of each
    thread that has constructed one (the index of its slot), the global
    list [nodes_to_reclaim], and the free store holding the nodes. *)
Record state : Type := State {
  stack_head : option addr;
  hazard_pointers : list hazard_pointer;
  hazard : gmap thread_id nat;
  nodes_to_reclaim : list addr;
  heap : gmap addr node }.

Definition set_stack_head (h : option addr) (s : state) : state :=
  State h (hazard_pointers s) (hazard s) (nodes_to_reclaim s) (heap s).
Definition set_hazard_pointers (tbl : list hazard_pointer) (s : state) : state :=
  State (stack_head s) tbl (hazard s) (nodes_to_reclaim s) (heap s).
Definition set_hazard (m : gmap thread_id nat) (s : state) : state :=
  State (stack_head s) (hazard_pointers s) m (nodes_to_reclaim s) (heap s).
Definition set_nodes_to_reclaim (l : list addr) (s : state) : state :=
  State (stack_head s) (hazard_pointers s) (hazard s) l (heap s).
Definition set_heap (h : gmap addr node) (s : state) : state :=
  State (stack_head s) (hazard_pointers s) (hazard s) (nodes_to_reclaim s) h.

(** The loop of [hp_owner::hp_owner], [n] iterations from index [i]: the
    first slot whose [id] compares equal to the default [thread::id()] is
    claimed by the compare-exchange. *)
Fixpoint hp_owner_loop (n i : nat) (tbl : list hazard_pointer) : option nat :=
  match n with
  | 0 => None
  | S n' =>
      match tbl !! i with
      | Some (HazardPointer None _) => Some i
      | _ => hp_owner_loop n' (S i) tbl
      end
  end.

Definition claim (t : thread_id) (h : hazard_pointer) : hazard_pointer :=
  HazardPointer (Some t) (hp_pointer h).

(** [hp_owner::hp_owner()] run by thread [t]: returns [hp] as the index of
    the claimed slot, or throws when the loop leaves [hp] null. *)
Definition hp_owner (t : thread_id) (s : state) : outcome state nat :=
  match hp_owner_loop max_hazard_pointers 0 (hazard_pointers s) with
  | Some i => Ret i (set_hazard_pointers (alter (claim t) i (hazard_pointers s)) s)
  | None => Throw runtime_error_no_hazard_pointers s
  end.

(** [get_hazard_pointer_for_current_thread()]: the thread-local [hazard] is
    constructed at the first call of the thread; a constructor that throws
    leaves it unconstructed. *)
Definition get_hazard_pointer_for_current_thread (t : thread_id) (s : state)
  : outcome state nat :=
  match hazard s !! t with
  | Some i => Ret i s
  | None =>
      match hp_owner t s with
      | Ret i s' => Ret i (set_hazard (<[t := i]> (hazard s')) s')
      | o => o
      end
  end.

(** [hp.store(p)] on the slot handed out above. *)
Definition hp_store (i : nat) (p : option addr) (s : state) : state :=
  set_hazard_pointers
    (alter (fun h => HazardPointer (hp_id h) p) i (hazard_pointers s)) s.

(** [hp_owner::~hp_owner()], run on the [hazard] of thread [t] when the
    thread exits: the pointer of its slot is cleared, then the owner id, and
    the thread-local object is gone.  A thread that never constructed its
    [hazard] has nothing to destroy. *)
Definition hp_owner_destroy (t : thread_id) (s : state) : state :=
  match hazard s !! t with
  | Some i =>
      let s := hp_store i None s in
      let s := set_hazard_pointers
                 (alter (fun h => HazardPointer None (hp_pointer h)) i
                    (hazard_pointers s)) s in
      set_hazard (delete t (hazard s)) s
  | None => s
  end.

Fixpoint outstanding_loop (n i : nat) (p : addr) (tbl : list hazard_pointer) : bool :=
  match n with
  | 0 => false
  | S n' =>
      match tbl !! i with
      | Some h =>
          if decide (hp_pointer h = Some p) then true
          else outstanding_loop n' (S i) p tbl
      | None => outstanding_loop n' (S i) p tbl
      end
  end.

(** [outstanding_hazard_pointers_for(p)] *)
Definition outstanding_hazard_pointers_for (p : addr) (s : state) : bool :=
  outstanding_loop max_hazard_pointers 0 p (hazard_pointers s).

(** [delete p]: the node leaves the free store. *)
Definition do_delete (p : addr) (s : state) : state :=
  set_heap (delete p (heap s)) s.

(** [add_to_reclaim_list(node)]; an entry of the list is identified with
    the address it carries. *)
Definition add_to_reclaim_list (p : addr) (s : state) : state :=
  set_nodes_to_reclaim (p :: nodes_to_reclaim s) s.

(** [reclaim_later(data)] *)
Definition reclaim_later (p : addr) (s : state) : state :=
  add_to_reclaim_list p s.

(** The [while (current)] loop of [delete_nodes_with_no_hazards]. *)
Fixpoint reclaim_loop (current : list addr) (s : state) : state :=
  match current with
  | [] => s
  | c :: next =>
      if outstanding_hazard_pointers_for c s
      then reclaim_loop next (add_to_reclaim_list c s)
      else reclaim_loop next (do_delete c s)
  end.

(** [delete_nodes_with_no_hazards()]: the list is taken whole by
    [exchange(nullptr)], then walked. *)
Definition delete_nodes_with_no_hazards (s : state) : state :=
  reclaim_loop (nodes_to_reclaim s) (set_nodes_to_reclaim [] s).

(** [new node(data)]: some address that is not allocated. *)
Definition new_node (s : state) : addr := fresh (dom (heap s)).

(** [lock_free_stack<T>::push] (both overloads). *)
Definition push (data : A) (s : state) : state :=
  let n := new_node s in
  set_stack_head (Some n)
    (set_heap (<[n := Node (Some data) (stack_head s)]> (heap s)) s).

(** [lock_free_stack<T>::pop] run by thread [t]; the result is the
    [shared_ptr<T>], [None] when it is empty. *)
Definition pop (t : thread_id) (s : state) : outcome state (option A) :=
  match get_hazard_pointer_for_current_thread t s with
  | Ret hp s =>
      let old_head := stack_head s in
      let s := hp_store hp old_head s in
      match old_head with
      | None => Ret None (hp_store hp None s)
      | Some p =>
          match heap s !! p with
          | None => Undefined      (* old_head->next of a node that was freed *)
          | Some nd =>
              let s := set_stack_head (node_next nd) s in
              let s := hp_store hp None s in
              let res := node_data nd in
              let s := set_heap (<[p := Node None (node_next nd)]> (heap s)) s in
              let s := if outstanding_hazard_pointers_for p s
                       then reclaim_later p s
                       else do_delete p s in
              Ret res (delete_nodes_with_no_hazards s)
          end
      end
  | Throw e s => Throw e s
  | Undefined => Undefined
  | OutOfFuel => OutOfFuel
  end.

(** A stack operation, for statements that range over both. *)
Inductive stack_op : Type := op_push (data : A) | op_pop.

Definition run_op (t : thread_id) (o : stack_op) (s : state)
  : outcome state (option A) :=
  match o with
  | op_push data => Ret None (push data s)
  | op_pop => pop t s
  end.
End lock_free_stack.
Arguments node : clear implicits.
Arguments state : clear implicits.
Arguments stack_op : clear implicits.

(** The process before any thread has touched the stack: the static table is
    zero-initialised, no thread has a slot, both lists are empty. *)
Definition initial_state (A : Type) : state A :=
  State None (replicate max_hazard_pointers (HazardPointer None None)) ∅ [] ∅.

(** ** std::partition

    [do_sort] partitions a [std::list], whose iterators are bidirectional.
    For these the standard library (libstdc++ [__partition], libc++
    [__partition_impl], MSVC [_Partition_unchecked]) runs the two-ended
    scheme below: advance [first] over elements that satisfy the predicate,
    move [last] back over elements that do not, swap the two elements that
    are out of place, repeat until the iterators meet. *)

Section std_partition.
Context {T : Type} (pred : T -> bool).

(** The backward scan from [last] over the range after [first]: the range
    split at its last element that satisfies [pred], or [None] when [last]
    meets [first]. *)
Fixpoint scan_back (l : list T) : option (list T * T * list T) :=
  match l with
  | [] => None
  | x :: l' =>
      match scan_back l' with
      | Some (mid, y, tl) => Some (x :: mid, y, tl)
      | None => if pred x then Some ([], x, l') else None
      end
  end.

(** The outer loop on the range [first, last), bounded by [n] steps.  The
    result is the final arrangement of the range, cut at the returned
    iterator. *)
Fixpoint partition_loop (n : nat) (l : list T) : list T * list T :=
  match n with
  | 0 => ([], l)
  | S n' =>
      match l with
      | [] => ([], [])
      | x :: l' =>
          if pred x
          then let '(lo, hi) := partition_loop n' l' in (x :: lo, hi)
          else match scan_back l' with
               | None => ([], x :: l')
               | Some (mid, y, tl) =>
                   let '(lo, hi) := partition_loop n' mid in
                   (y :: lo, hi ++ x :: tl)
               end
      end
  end.

(** [std::partition(l.begin(), l.end(), pred)]: the elements before the
    returned iterator and those from it on. *)
Definition std_partition (l : list T) : list T * list T :=
  partition_loop (length l) l.
End std_partition.

(** ** sorter.hpp *)

(** [std::thread::hardware_concurrency() - 1] in [unsigned] arithmetic
    (32 bits). *)
Definition unsigned_sub (a b : Z) : Z := ((a - b) mod 2 ^ 32)%Z.

Section sorter.
Context {T : Type} (lt : T -> T -> bool).

(** [struct chunk_to_sort]; [promise] names the shared state that the
    promise and its future refer to. *)
Record chunk_to_sort : Type := Chunk {
  data : list T;
  promise : nat }.

(** [class sorter], with the shared states of the promises it has created:
    [None] while a result is pending, [Some r] once [set_value(r)] has run.
    [threads] counts the entries of the vector. *)
Record sorter : Type := Sorter {
  chunks : state chunk_to_sort;
  threads : nat;
  max_thread_count : Z;
  end_of_data : bool;
  promises : gmap nat (option (list T)) }.

Definition set_chunks (c : state chunk_to_sort) (w : sorter) : sorter :=
  Sorter c (threads w) (max_thread_count w) (end_of_data w) (promises w).
Definition set_threads (n : nat) (w : sorter) : sorter :=
  Sorter (chunks w) n (max_thread_count w) (end_of_data w) (promises w).
Definition set_end_of_data (b : bool) (w : sorter) : sorter :=
  Sorter (chunks w) (threads w) (max_thread_count w) b (promises w).
Definition set_promises (p : gmap nat (option (list T))) (w : sorter) : sorter :=
  Sorter (chunks w) (threads w) (max_thread_count w) (end_of_data w) p.

(** A stack operation on [chunks], seen from the sorter. *)
Definition on_chunks {R} (m : state chunk_to_sort -> outcome (state chunk_to_sort) R)
  : sorter -> outcome sorter R :=
  fun w =>
    match m (chunks w) with
    | Ret r c => Ret r (set_chunks c w)
    | Throw e c => Throw e (set_chunks c w)
    | Undefined => Undefined
    | OutOfFuel => OutOfFuel
    end.

(** [promise.set_value(r)] *)
Definition set_value (p : nat) (r : list T) : sorter -> outcome sorter unit :=
  fun w =>
    match promises w !! p with
    | Some None => Ret tt (set_promises (<[p := Some r]> (promises w)) w)
    | Some (Some _) => Throw future_error_promise_already_satisfied w
    | None => Undefined
    end.

(** [fut.wait_for(std::chrono::seconds(0)) == std::future_status::ready] *)
Definition is_ready (p : nat) (w : sorter) : bool :=
  match promises w !! p with
  | Some (Some _) => true
  | _ => false
  end.

(** [fut.get()] of a future that is ready. *)
Definition future_get (p : nat) : sorter -> outcome sorter (list T) :=
  fun w =>
    match promises w !! p with
    | Some (Some r) => Ret r w
    | _ => Undefined
    end.

(** Lines 64 to 67 of [do_sort]: the chunk for the lower group is built
    with a new promise, its future is taken, the chunk is pushed. *)
Definition offload (lower : list T) (w : sorter) : nat * sorter :=
  let new_lower_fut := fresh (dom (promises w)) in
  let w := set_promises (<[new_lower_fut := None]> (promises w)) w in
  let new_lower_chunk := Chunk lower new_lower_fut in
  (new_lower_fut, set_chunks (push new_lower_chunk (chunks w)) w).

(** Lines 69 to 71: one more thread while [threads.size()] is below the
    cap.  A thread pushed on [threads] does not get to run before the sorter
    is destroyed: its effect here is the grown vector.  What such a thread
    does when it runs is [sort_thread] below; where that matters (a worker
    that runs with the hazard table exhausted throws at its first [pop]) the
    statements are made for a sorter that creates no thread. *)
Definition grow_pool (w : sorter) : sorter :=
  if decide (Z.of_nat (threads w) < max_thread_count w)%Z
  then set_threads (S (threads w)) w else w.

(** [do_sort], [try_sort_chunk], [sort_chunk] and the waiting loop of
    [do_sort] (lines 76 to 78) call each other; [fuel] bounds the depth of
    the calls.  Thread [t] runs the code. *)
Fixpoint do_sort (fuel : nat) (t : thread_id) (chunk_data : list T)
  : sorter -> outcome sorter (list T) :=
  match fuel with
  | 0 => fun _ => OutOfFuel
  | S fuel =>
      match chunk_data with
      | [] => Ret []
      | pivot_val :: chunk_data =>
          let '(lower, chunk_data) :=
            std_partition (fun val => lt val pivot_val) chunk_data in
          fun w =>
            let '(new_lower_fut, w) := offload lower w in
            let w := grow_pool w in
            (let* new_higher := do_sort fuel t chunk_data in
             let* _ := help_until_ready fuel t new_lower_fut in
             let* new_lower := future_get new_lower_fut in
             Ret (new_lower ++ pivot_val :: new_higher)) w
      end
  end
with help_until_ready (fuel : nat) (t : thread_id) (new_lower_fut : nat)
  : sorter -> outcome sorter unit :=
  match fuel with
  | 0 => fun _ => OutOfFuel
  | S fuel =>
      fun w =>
        if is_ready new_lower_fut w then Ret tt w
        else (let* _ := try_sort_chunk fuel t in
              help_until_ready fuel t new_lower_fut) w
  end
with try_sort_chunk (fuel : nat) (t : thread_id) : sorter -> outcome sorter unit :=
  match fuel with
  | 0 => fun _ => OutOfFuel
  | S fuel =>
      let* chunk := on_chunks (pop t) in
      match chunk with
      | Some chunk => sort_chunk fuel t chunk
      | None => Ret tt
      end
  end
with sort_chunk (fuel : nat) (t : thread_id) (chunk : chunk_to_sort)
  : sorter -> outcome sorter unit :=
  match fuel with
  | 0 => fun _ => OutOfFuel
  | S fuel =>
      let* r := do_sort fuel t (data chunk) in
      set_value (promise chunk) r
  end.

(** [sort_thread], the function a worker thread [t] runs; [fuel] bounds the
    iterations.  An exception that leaves it is not caught anywhere. *)
Fixpoint sort_thread (fuel : nat) (t : thread_id) : sorter -> outcome sorter unit :=
  match fuel with
  | 0 => fun _ => OutOfFuel
  | S fuel =>
      fun w =>
        if end_of_data w then Ret tt w
        else (let* _ := try_sort_chunk fuel t in
              sort_thread fuel t) w
  end.

(** [sorter::sorter()]: a new sorter in a process whose shared objects are
    [g].  Its stack starts empty: [head] is null, as the value-initialising
    default constructor of [std::atomic] leaves it.  [hw] is what
    [thread::hardware_concurrency()] reports. *)
Definition sorter_new (hw : Z) (g : state chunk_to_sort) : sorter :=
  Sorter (set_stack_head None g) 0 (unsigned_sub hw 1) false ∅.

(** [sorter::~sorter()]: the flag is set and the threads are joined; each
    finds the flag set at its first test and returns. *)
Definition sorter_destroy (w : sorter) : sorter :=
  set_end_of_data true w.

(** [parallel_quick_sort(input)]; the destructor of [s] also runs when
    [do_sort] leaves by an exception. *)
Definition parallel_quick_sort (fuel : nat) (hw : Z) (t : thread_id)
    (input : list T) (g : state chunk_to_sort)
  : outcome (state chunk_to_sort) (list T) :=
  match input with
  | [] => Ret input g
  | _ =>
      match do_sort fuel t input (sorter_new hw g) with
      | Ret r w => Ret r (chunks (sorter_destroy w))
      | Throw e w => Throw e (chunks (sorter_destroy w))
      | Undefined => Undefined
      | OutOfFuel => OutOfFuel
      end
  end.
End sorter.
Arguments chunk_to_sort : clear implicits.
Arguments sorter : clear implicits.

(** ** Predicates on states *)

Section state_predicates.
Context {A : Type}.
Implicit Types (s : state A) (t : thread_id) (p : addr).

(** The entries of the table that the loops visit. *)
Definition slots s : list hazard_pointer :=
  take max_hazard_pointers (hazard_pointers s).

(** No free slot: every slot's owner id is set. *)
Definition table_exhausted s : Prop :=
  Forall (fun h => is_Some (hp_id h)) (slots s).

Definition has_free_slot s : Prop :=
  Exists (fun h => hp_id h = None) (slots s).

(** Thread [t] owns a slot already or can claim one. *)
Definition can_acquire t s : Prop :=
  is_Some (hazard s !! t) \/ has_free_slot s.

(** Some hazard slot holds the address [p]. *)
Definition protected p s : Prop :=
  Exists (fun h => hp_pointer h = Some p) (slots s).

(** Every deferred node is still allocated, and is listed once. *)
Definition reclaim_sound s : Prop :=
  NoDup (nodes_to_reclaim s) /\
  Forall (fun a => is_Some (heap s !! a)) (nodes_to_reclaim s).

(** The nodes linked from a head pointer, with their payloads. *)
Inductive chain (h : gmap addr (node A)) : option addr -> list (addr * A) -> Prop :=
  | chain_nil : chain h None []
  | chain_cons a x nx l :
      h !! a = Some (Node (Some x) nx) ->
      chain h nx l ->
      chain h (Some a) ((a, x) :: l).

(** The stack holds the nodes [al], top first, none of them shared with
    the reclamation list. *)
Record stack_inv s (al : list (addr * A)) : Prop := StackInv {
  inv_chain : chain (heap s) (stack_head s) al;
  inv_nodup : NoDup al.*1;
  inv_reclaim : reclaim_sound s;
  inv_disjoint : forall a, a ∈ al.*1 -> a ∉ nodes_to_reclaim s }.

(** The thread-local handles agree with the table: the slot a thread holds
    is one the loops visit, and carries the id of that thread. *)
Definition owns_consistent s : Prop :=
  forall t i, hazard s !! t = Some i ->
    i < max_hazard_pointers /\
    exists h, hazard_pointers s !! i = Some h /\ hp_id h = Some t.

(** No slot holds an address. *)
Definition quiet s : Prop :=
  Forall (fun h => hp_pointer h = None) (slots s).

(** A slot without an owner holds no address. *)
Definition free_slots_clear s : Prop :=
  Forall (fun h => hp_id h = None -> hp_pointer h = None) (slots s).

(** What the specification asks of a thread's first stack operation,
    whichever it is, when the table is exhausted. *)
Definition first_operation_fails t s (o : stack_op A) : Prop :=
  hazard s !! t = None -> table_exhausted s ->
  exists s', run_op t o s = Throw runtime_error_no_hazard_pointers s'.
End state_predicates.

(** A table whose hundred slots are owned by the threads 1 to 100. *)
Definition exhausted_state (A : Type) : state A :=
  State None ((fun i => HazardPointer (Some (S i)) None) <$> seq 0 max_hazard_pointers)
    ∅ [] ∅.

(** One node on the stack, at address 0, which the slot of thread 9 holds. *)
Definition contended_state : state nat :=
  State (Some 0)
    (HazardPointer (Some 9) (Some 0) :: replicate 99 (HazardPointer None None))
    ∅ [] {[0 := Node (Some 7) None]}.

Definition contended_after : state nat :=
  match pop 1 contended_state with
  | Ret _ s' => s'
  | _ => contended_state
  end.

(** Slots 0 and 1 are held by the threads 11 and 12, the others are free. *)
Definition partly_owned_state : state nat :=
  State None
    (HazardPointer (Some 11) None :: HazardPointer (Some 12) None
       :: replicate 98 (HazardPointer None None))
    {[11 := 0; 12 := 1]} [] ∅.

Definition partly_owned_after : state nat :=
  match get_hazard_pointer_for_current_thread 5 partly_owned_state with
  | Ret _ s' => s'
  | _ => partly_owned_state
  end.

(** The state after thread 5 has popped the empty stack there. *)
Definition partly_owned_popped : state nat :=
  match pop 5 partly_owned_state with
  | Ret _ s' => s'
  | _ => partly_owned_state
  end.

(** The state a first [pop] on the untouched, empty stack leaves. *)
Definition idle_after : state nat :=
  match pop 0 (initial_state nat) with
  | Ret _ s' => s'
  | _ => initial_state nat
  end.

(** One node on the stack, one deferred node, and no address published. *)
Definition deferred_state : state nat :=
  State (Some 0) (replicate max_hazard_pointers (HazardPointer None None))
    ∅ [1] {[0 := Node (Some 7) None; 1 := Node None None]}.

Definition deferred_after : state nat :=
  match pop 0 deferred_state with
  | Ret _ s' => s'
  | _ => deferred_state
  end.

(** ** Predicates on the sorter *)

Section sorter_predicates.
Context {T : Type} (lt : T -> T -> bool).

(** The value [do_sort] computes, following its recursion: the sorted
    lower group, the pivot, the sorted higher group. *)
Inductive sorts_to : list T -> list T -> Prop :=
  | sorts_nil : sorts_to [] []
  | sorts_cons pivot_val rest lo hi :
      sorts_to (std_partition (fun val => lt val pivot_val) rest).1 lo ->
      sorts_to (std_partition (fun val => lt val pivot_val) rest).2 hi ->
      sorts_to (pivot_val :: rest) (lo ++ pivot_val :: hi).

(** Fuel that is enough for [do_sort] on a list of length [n]. *)
Definition enough (n : nat) : nat := 4 * n + 1.

(** [do_sort] run by [t] on [l] returns [out] from every state in which
    the stack is well formed and [t] can get a hazard slot. *)
Definition do_sort_returns (t : thread_id) (l out : list T) : Prop :=
  forall fuel (w : sorter T) al,
    enough (length l) <= fuel ->
    stack_inv (chunks w) al -> can_acquire t (chunks w) ->
    exists w', do_sort lt fuel t l w = Ret out w'.

(** What the specification asks when the thread that fails is a worker:
    that the condition reach the caller of the sort.  An exception that
    leaves the function a [std::thread] runs reaches no caller
    ([std::terminate] is called), so none may leave [sort_thread]. *)
Definition worker_failure_contained (fuel : nat) (t : thread_id)
    (w : sorter T) : Prop :=
  forall e w', sort_thread lt fuel t w <> Throw e w'.


(** A stable partition around [pivot_val]: each group keeps its elements
    in the order of the input. *)
Definition stably_partitioned (pivot_val : T) (rest : list T)
    (groups : list T * list T) : Prop :=
  groups.1 = filter (fun val => lt val pivot_val = true) rest /\
  groups.2 = filter (fun val => lt val pivot_val = false) rest.
End sorter_predicates.


(** The sorter of a sort of [4; 2] where eight hardware threads are
    reported and the hazard table is exhausted, after the first partition
    step: the chunk [2] is on the stack and one thread has been created. *)
Definition spawned_on_exhausted : sorter Z :=
  grow_pool (offload [2]%Z (sorter_new 8 (exhausted_state _))).2.

(** The default worker cap as the specification words it: hardware
    parallelism minus one, and never below one. *)
Definition default_cap_as_claimed (hw cap : Z) : Prop :=
  (cap = hw - 1 /\ 1 <= cap)%Z.

(** * Lemmas about the embedding *)

(** ** The embedding at work *)

Example partition_5_6_1 :
  std_partition (fun val => val <? 3)%Z [5; 6; 1]%Z = ([1]%Z, [6; 5]%Z).
Proof. reflexivity. Qed.

Example sort_concrete_scenario :
  exists g',
    parallel_quick_sort Z.ltb 25 8 0 [5; 3; 8; 1; 9; 2]%Z (initial_state _)
    = Ret [1; 2; 3; 5; 8; 9]%Z g'.
Proof. eexists. vm_compute. reflexivity. Qed.

Example sort_all_equal :
  exists g',
    parallel_quick_sort Z.ltb 13 1 0 [4; 4; 4]%Z (initial_state _)
    = Ret [4; 4; 4]%Z g'.
Proof. eexists. vm_compute. reflexivity. Qed.

Example sort_exhausted :
  exists g',
    parallel_quick_sort Z.ltb 13 1 0 [4; 2]%Z (exhausted_state _)
    = Throw runtime_error_no_hazard_pointers g'.
Proof. eexists. vm_compute. reflexivity. Qed.

(** ** The hazard table *)

Section hazard_table.
Context {A : Type}.
Implicit Types (s : state A) (t : thread_id) (p : addr)
  (tbl : list hazard_pointer).

Lemma take_drop_step tbl n i :
  take (S n) (drop i tbl) =
  match tbl !! i with
  | Some h => h :: take n (drop (S i) tbl)
  | None => []
  end.
Proof.
  destruct (tbl !! i) as [h|] eqn:E.
  - by rewrite (drop_S _ _ _ E).
  - apply lookup_ge_None in E. by rewrite drop_ge.
Qed.

Lemma drop_past tbl n i :
  tbl !! i = None -> take n (drop (S i) tbl) = [].
Proof.
  intros E%lookup_ge_None. rewrite drop_ge; [by rewrite take_nil | lia].
Qed.

Lemma hp_owner_loop_None tbl n i :
  hp_owner_loop n i tbl = None <->
  Forall (fun h => is_Some (hp_id h)) (take n (drop i tbl)).
Proof.
  revert i. induction n as [|n IH]; intros i.
  - rewrite take_0. split; [constructor | done].
  - rewrite take_drop_step. cbn [hp_owner_loop].
    destruct (tbl !! i) as [[[o|] q]|] eqn:E.
    + rewrite IH, Forall_cons. cbn. split; [eauto | tauto].
    + split; [done|]. intros [[? ?] _]%Forall_cons. done.
    + rewrite IH, (drop_past _ _ _ E). split; constructor.
Qed.

Lemma hp_owner_loop_Some tbl n i k :
  hp_owner_loop n i tbl = Some k ->
  exists q, tbl !! k = Some (HazardPointer None q) /\ i <= k < i + n.
Proof.
  revert i. induction n as [|n IH]; intros i; cbn [hp_owner_loop]; [done|].
  destruct (tbl !! i) as [[[o|] q]|] eqn:E.
  - intros (q' & ? & ?)%IH. exists q'. split; [done | lia].
  - intros [= <-]. exists q. split; [done | lia].
  - intros (q' & ? & ?)%IH. exists q'. split; [done | lia].
Qed.

Lemma hp_owner_loop_free tbl n i :
  Exists (fun h => hp_id h = None) (take n (drop i tbl)) ->
  is_Some (hp_owner_loop n i tbl).
Proof.
  intros Hex. destruct (hp_owner_loop n i tbl) eqn:E; [eauto|].
  apply hp_owner_loop_None in E. apply Exists_exists in Hex as (h & Hin & Hh).
  rewrite Forall_forall in E. specialize (E h Hin). rewrite Hh in E.
  by destruct E.
Qed.

Lemma outstanding_loop_spec tbl n i p :
  outstanding_loop n i p tbl = true <->
  Exists (fun h => hp_pointer h = Some p) (take n (drop i tbl)).
Proof.
  revert i. induction n as [|n IH]; intros i.
  - rewrite take_0. split; [done | by intros ?%Exists_nil].
  - rewrite take_drop_step. cbn [outstanding_loop].
    destruct (tbl !! i) as [h|] eqn:E.
    + rewrite Exists_cons. destruct (decide (hp_pointer h = Some p)).
      * tauto.
      * rewrite IH. tauto.
    + rewrite IH, (drop_past _ _ _ E). split; [|done]. by intros ?%Exists_nil.
Qed.

Lemma outstanding_protected p s :
  outstanding_hazard_pointers_for p s = true <-> protected p s.
Proof. apply outstanding_loop_spec. Qed.

Lemma outstanding_not_protected p s :
  outstanding_hazard_pointers_for p s = false <-> ~ protected p s.
Proof.
  rewrite <- outstanding_protected.
  destruct (outstanding_hazard_pointers_for p s); split; congruence.
Qed.
End hazard_table.

(** ** The stack and the reclamation list *)

Opaque max_hazard_pointers.
Arguments outstanding_hazard_pointers_for : simpl never.
Arguments delete_nodes_with_no_hazards : simpl never.

Section stack_properties.
Context {A : Type}.
Implicit Types (s : state A) (t : thread_id) (p a : addr)
  (al : list (addr * A)).

Lemma slots_drop s : slots s = take max_hazard_pointers (drop 0 (hazard_pointers s)).
Proof. reflexivity. Qed.

Lemma get_hazard_exhausted t s :
  hazard s !! t = None -> table_exhausted s ->
  get_hazard_pointer_for_current_thread t s
  = Throw runtime_error_no_hazard_pointers s.
Proof.
  intros Ht Hfull. unfold get_hazard_pointer_for_current_thread, hp_owner.
  rewrite Ht. unfold table_exhausted in Hfull. rewrite slots_drop in Hfull.
  apply hp_owner_loop_None in Hfull. by rewrite Hfull.
Qed.

(** Acquiring a slot touches the table and the thread-local handle only. *)
Lemma get_hazard_acquire t s :
  can_acquire t s ->
  exists i s',
    get_hazard_pointer_for_current_thread t s = Ret i s' /\
    hazard s' !! t = Some i /\
    stack_head s' = stack_head s /\
    nodes_to_reclaim s' = nodes_to_reclaim s /\
    heap s' = heap s.
Proof.
  intros Hacq. unfold get_hazard_pointer_for_current_thread.
  destruct (hazard s !! t) as [i|] eqn:Ht.
  - by exists i, s.
  - destruct Hacq as [[? ?]|Hfree]; [congruence|].
    unfold has_free_slot in Hfree. rewrite slots_drop in Hfree.
    apply hp_owner_loop_free in Hfree as [i Hi].
    unfold hp_owner. rewrite Hi. eexists _, _. split; [reflexivity|].
    cbn. by rewrite lookup_insert_eq.
Qed.

Lemma get_hazard_Ret t s i s' :
  get_hazard_pointer_for_current_thread t s = Ret i s' -> can_acquire t s.
Proof.
  unfold get_hazard_pointer_for_current_thread, hp_owner, can_acquire.
  destruct (hazard s !! t) as [j|]; [eauto|].
  destruct (hp_owner_loop _ _ _) as [j|] eqn:E; [|done].
  intros _. right. unfold has_free_slot. rewrite slots_drop.
  destruct (decide (Exists (fun h => hp_id h = None)
    (take max_hazard_pointers (drop 0 (hazard_pointers s))))) as [|Hn]; [done|].
  apply not_Exists_Forall in Hn; [|intros h; apply _].
  assert (hp_owner_loop max_hazard_pointers 0 (hazard_pointers s) = None) as E'.
  { apply hp_owner_loop_None. eapply Forall_impl; [exact Hn|].
    intros h Hh. cbn in Hh. destruct (hp_id h); [eauto | done]. }
  congruence.
Qed.

(** The walk over the reclamation list, in closed form. *)
Lemma reclaim_loop_frame cur s :
  stack_head (reclaim_loop cur s) = stack_head s /\
  hazard_pointers (reclaim_loop cur s) = hazard_pointers s /\
  hazard (reclaim_loop cur s) = hazard s.
Proof.
  revert s. induction cur as [|c cur IH]; intros s; cbn [reclaim_loop]; [done|].
  destruct (outstanding_hazard_pointers_for c s);
    destruct (IH (add_to_reclaim_list c s)) as (?&?&?);
    destruct (IH (do_delete c s)) as (?&?&?); done.
Qed.

Lemma outstanding_frame p s s' :
  hazard_pointers s' = hazard_pointers s ->
  outstanding_hazard_pointers_for p s' = outstanding_hazard_pointers_for p s.
Proof. unfold outstanding_hazard_pointers_for. by intros ->. Qed.

Lemma reclaim_loop_list_gen (P : addr -> bool) cur s :
  (forall a, outstanding_hazard_pointers_for a s = P a) ->
  nodes_to_reclaim (reclaim_loop cur s)
  = reverse (filter (fun a => P a = true) cur) ++ nodes_to_reclaim s.
Proof.
  revert s. induction cur as [|c cur IH]; intros s HP; cbn [reclaim_loop]; [done|].
  rewrite filter_cons, HP. destruct (P c) eqn:E.
  - rewrite decide_True by done. rewrite IH.
    + by rewrite reverse_cons, <- app_assoc.
    + intros a. rewrite <- HP. by apply outstanding_frame.
  - rewrite decide_False by done. rewrite IH; [done|].
    intros a. rewrite <- HP. by apply outstanding_frame.
Qed.

Lemma reclaim_loop_list cur s :
  nodes_to_reclaim (reclaim_loop cur s)
  = reverse (filter (fun a => outstanding_hazard_pointers_for a s = true) cur)
    ++ nodes_to_reclaim s.
Proof. by apply reclaim_loop_list_gen. Qed.

Lemma reclaim_loop_heap cur s a :
  heap (reclaim_loop cur s) !! a
  = if decide (a ∈ cur /\ outstanding_hazard_pointers_for a s = false)
    then None else heap s !! a.
Proof.
  revert s. induction cur as [|c cur IH]; intros s; cbn [reclaim_loop].
  - rewrite decide_False; [done|]. intros [?%elem_of_nil _]. done.
  - destruct (outstanding_hazard_pointers_for c s) eqn:E; rewrite IH.
    + rewrite (outstanding_frame a s (add_to_reclaim_list c s)) by done.
      change (heap (add_to_reclaim_list c s)) with (heap s).
      destruct (decide (a = c)) as [->|Hne].
      * rewrite E. rewrite !decide_False; [done | intros [_ ?] ..]; congruence.
      * destruct (decide (a ∈ cur /\ outstanding_hazard_pointers_for a s = false))
          as [[Hin Ho]|Hn].
        -- rewrite decide_True; [done|]. split; [by right | done].
        -- rewrite decide_False; [done|].
           intros [[?|?]%elem_of_cons ?]; [by apply Hne | by apply Hn].
    + rewrite (outstanding_frame a s (do_delete c s)) by done.
      change (heap (do_delete c s)) with (delete c (heap s)).
      destruct (decide (a = c)) as [->|Hne].
      * rewrite lookup_delete_eq. rewrite (decide_True (P := c ∈ c :: cur /\ _)).
        -- by destruct (decide _).
        -- split; [by left | done].
      * rewrite lookup_delete_ne by done.
        destruct (decide (a ∈ cur /\ outstanding_hazard_pointers_for a s = false))
          as [[Hin Ho]|Hn].
        -- rewrite decide_True; [done|]. split; [by right | done].
        -- rewrite decide_False; [done|].
           intros [[?|?]%elem_of_cons ?]; [by apply Hne | by apply Hn].
Qed.

Lemma chain_ext (h h' : gmap addr (node A)) hd al :
  (forall a, a ∈ al.*1 -> h' !! a = h !! a) ->
  chain h hd al -> chain h' hd al.
Proof.
  intros Hagree Hc. induction Hc as [|a x nx l Ha Hc IH]; [constructor|].
  apply (chain_cons _ _ _ nx).
  - rewrite Hagree; [done|]. cbn. by left.
  - apply IH. intros b Hb. apply Hagree. cbn. by right.
Qed.

Lemma chain_alloc (h : gmap addr (node A)) hd al a :
  chain h hd al -> a ∈ al.*1 -> is_Some (h !! a).
Proof.
  induction 1 as [|b x nx l Hb Hc IH]; cbn; [by intros ?%elem_of_nil|].
  intros [->|?]%elem_of_cons; eauto.
Qed.

Lemma stack_inv_empty s :
  stack_head s = None -> reclaim_sound s -> stack_inv s [].
Proof.
  intros Hh Hr. split; cbn; [rewrite Hh; constructor | constructor | done |].
  by intros a ?%elem_of_nil.
Qed.

Lemma stack_inv_head_None s al :
  stack_inv s al -> stack_head s = None -> al = [].
Proof. intros [Hc _ _ _] Hh. rewrite Hh in Hc. by inversion Hc. Qed.

(** The invariant reads the head, the list and the free store only. *)
Lemma stack_inv_frame s s' al :
  stack_head s' = stack_head s ->
  nodes_to_reclaim s' = nodes_to_reclaim s ->
  heap s' = heap s ->
  stack_inv s al -> stack_inv s' al.
Proof.
  intros Hh Hr Hp [Hc Hn [Hr1 Hr2] Hd].
  split; unfold reclaim_sound; rewrite ?Hh, ?Hr, ?Hp; auto.
Qed.

Lemma push_inv s al x :
  stack_inv s al -> stack_inv (push x s) ((new_node s, x) :: al).
Proof.
  intros [Hc Hn [Hr1 Hr2] Hd].
  assert (heap s !! new_node s = None) as Hfresh.
  { apply not_elem_of_dom. apply is_fresh. }
  assert (new_node s ∉ al.*1) as Hnew.
  { intros Hin. destruct (chain_alloc _ _ _ _ Hc Hin) as [? ?]. congruence. }
  split; cbn.
  - apply (chain_cons _ _ _ (stack_head s)); [by rewrite lookup_insert_eq|].
    eapply chain_ext; [|exact Hc].
    intros a Ha. rewrite lookup_insert_ne; [done|]. intros <-. done.
  - by constructor.
  - split; cbn; [done|]. eapply Forall_impl; [exact Hr2|].
    intros a [nd Ha]. cbn. destruct (decide (new_node s = a)) as [<-|].
    + congruence.
    + rewrite lookup_insert_ne by done. eauto.
  - intros a [->|Ha]%elem_of_cons; [|by apply Hd].
    intros Hin. rewrite Forall_forall in Hr2. destruct (Hr2 _ Hin). congruence.
Qed.

Lemma sweep_inv s al :
  stack_inv s al -> stack_inv (delete_nodes_with_no_hazards s) al.
Proof.
  intros [Hc Hn [Hr1 Hr2] Hd]. unfold delete_nodes_with_no_hazards.
  destruct (reclaim_loop_frame (nodes_to_reclaim s) (set_nodes_to_reclaim [] s))
    as (Hh & _ & _).
  split.
  - rewrite Hh. cbn. eapply chain_ext; [|exact Hc].
    intros a Ha. rewrite reclaim_loop_heap. cbn.
    rewrite decide_False; [done|]. intros [Hin _]. by apply (Hd a).
  - done.
  - split.
    + rewrite reclaim_loop_list. cbn. rewrite app_nil_r.
      rewrite reverse_Permutation. by apply NoDup_filter.
    + rewrite reclaim_loop_list. cbn. rewrite app_nil_r.
      apply Forall_forall. intros a [Ho Hin]%elem_of_reverse%list_elem_of_filter.
      rewrite reclaim_loop_heap. cbn. rewrite decide_False.
      * rewrite Forall_forall in Hr2. by apply Hr2.
      * intros [_ ?]. congruence.
  - intros a Ha. rewrite reclaim_loop_list. cbn. rewrite app_nil_r.
    intros [_ Hin]%elem_of_reverse%list_elem_of_filter. by apply (Hd a).
Qed.

Lemma pop_exhausted t s :
  hazard s !! t = None -> table_exhausted s ->
  pop t s = Throw runtime_error_no_hazard_pointers s.
Proof. intros Ht Hfull. unfold pop. by rewrite get_hazard_exhausted. Qed.

Lemma pop_empty t s :
  stack_head s = None -> can_acquire t s ->
  exists s',
    pop t s = Ret None s' /\
    is_Some (hazard s' !! t) /\
    stack_head s' = None /\
    nodes_to_reclaim s' = nodes_to_reclaim s /\
    heap s' = heap s.
Proof.
  intros Hnone Hacq.
  destruct (get_hazard_acquire t s Hacq) as (i & s0 & Hget & Hti & Hh & Hr & Hp).
  unfold pop. rewrite Hget, Hh, Hnone. eexists. split; [reflexivity|].
  cbn. rewrite Hti, Hh. eauto.
Qed.

(** Popping a well-formed stack returns the payload of the top node and
    leaves the nodes below it. *)
Lemma pop_inv t s a x al :
  stack_inv s ((a, x) :: al) -> can_acquire t s ->
  exists s',
    pop t s = Ret (Some x) s' /\
    stack_inv s' al /\
    is_Some (hazard s' !! t).
Proof.
  intros [Hc Hn [Hr1 Hr2] Hd] Hacq.
  destruct (get_hazard_acquire t s Hacq) as (i & s0 & Hget & Hti & Hh & Hr & Hp).
  inversion Hc as [|a' x' nx l' Ha Hc' Hhead]; subst.
  apply NoDup_cons in Hn as [Hnotin Hn]. cbn in Hnotin.
  unfold pop. rewrite Hget, Hh, <- Hhead.
  change (heap (hp_store i (Some a) s0)) with (heap s0). rewrite Hp, Ha.
  eexists. split; [reflexivity|]. split.
  - apply sweep_inv.
    match goal with |- stack_inv (if ?b then _ else _) _ => destruct b end.
    + split; cbn.
      * eapply chain_ext; [|exact Hc'].
        intros b Hb. rewrite lookup_insert_ne; [by rewrite Hp|]. by intros <-.
      * done.
      * unfold reclaim_sound. cbn. rewrite Hr, Hp. split.
        -- constructor; [|done]. apply (Hd a). by left.
        -- constructor; [by rewrite lookup_insert_eq|].
           eapply Forall_impl; [exact Hr2|]. intros b Hb. cbn.
           by apply lookup_insert_is_Some'; right.
      * rewrite Hr. intros b Hb [->|Hin]%elem_of_cons; [done|].
        apply (Hd b); [by right | done].
    + split; cbn.
      * eapply chain_ext; [|exact Hc'].
        intros b Hb. rewrite lookup_delete_ne by (by intros <-).
        rewrite lookup_insert_ne; [by rewrite Hp|]. by intros <-.
      * done.
      * unfold reclaim_sound. cbn. rewrite Hr, Hp.
        split; [done|]. apply Forall_forall. intros b Hb.
        assert (a <> b) by (intros <-; apply (Hd a); [by left | done]).
        rewrite lookup_delete_ne, lookup_insert_ne by done.
        rewrite Forall_forall in Hr2. by apply Hr2.
      * rewrite Hr. intros b Hb. apply (Hd b). by right.
  - unfold delete_nodes_with_no_hazards.
    match goal with |- context [reclaim_loop ?c ?s] =>
      destruct (reclaim_loop_frame c s) as (_ & _ & ->) end.
    match goal with |- context [if ?b then _ else _] => destruct b end;
      cbn; rewrite Hti; eauto.
Qed.
End stack_properties.

(** ** std::partition *)

Section partition_properties.
Context {T : Type} (pred : T -> bool).
Implicit Types (l lo hi mid tl : list T).

Lemma scan_back_Some l mid y tl :
  scan_back pred l = Some (mid, y, tl) ->
  l = mid ++ y :: tl /\ pred y = true /\ Forall (fun v => pred v = false) tl.
Proof.
  revert mid y tl. induction l as [|x l IH]; intros mid y tl; cbn; [done|].
  destruct (scan_back pred l) as [[[mid' y'] tl']|] eqn:E.
  - intros [= <- <- <-]. destruct (IH _ _ _ eq_refl) as (-> & ? & ?). done.
  - destruct (pred x) eqn:Hx; [|done]. intros [= <- <- <-].
    split; [done|]. split; [done|]. clear IH.
    induction l as [|z l IHl]; [constructor|]. cbn in E.
    destruct (scan_back pred l) as [[[? ?] ?]|]; [done|].
    destruct (pred z) eqn:Hz; [done|]. constructor; auto.
Qed.

Lemma scan_back_None l :
  scan_back pred l = None -> Forall (fun v => pred v = false) l.
Proof.
  induction l as [|x l IH]; cbn; [constructor|].
  destruct (scan_back pred l) as [[[? ?] ?]|]; [done|].
  destruct (pred x) eqn:Hx; [done|]. constructor; auto.
Qed.

(** The loop sorts the range into a group that satisfies [pred] and one
    that does not, moving elements without adding or dropping any. *)
Lemma partition_loop_spec n l lo hi :
  length l <= n ->
  partition_loop pred n l = (lo, hi) ->
  l ≡ₚ lo ++ hi /\
  Forall (fun v => pred v = true) lo /\
  Forall (fun v => pred v = false) hi.
Proof.
  revert l lo hi. induction n as [|n IH]; intros l lo hi Hlen; cbn.
  - destruct l; [|cbn in Hlen; lia]. intros [= <- <-]. repeat constructor.
  - destruct l as [|x l]; [intros [= <- <-]; repeat constructor|].
    cbn in Hlen. destruct (pred x) eqn:Hx.
    + destruct (partition_loop pred n l) as [lo' hi'] eqn:E.
      intros [= <- <-]. destruct (IH l lo' hi') as (Hp & Hlo & Hhi); [lia|done|].
      split; [cbn; by rewrite Hp|]. split; [by constructor | done].
    + destruct (scan_back pred l) as [[[mid y] tl]|] eqn:Hs.
      * apply scan_back_Some in Hs as (-> & Hy & Htl).
        destruct (partition_loop pred n mid) as [lo' hi'] eqn:E.
        intros [= <- <-]. rewrite length_app in Hlen.
        destruct (IH mid lo' hi') as (Hp & Hlo & Hhi); [lia|done|].
        split; [|split].
        -- rewrite Hp. cbn. rewrite <- !app_assoc. cbn.
           rewrite <- !Permutation_middle. apply perm_swap.
        -- by constructor.
        -- apply Forall_app. split; [done|]. by constructor.
      * intros [= <- <-]. apply scan_back_None in Hs.
        split; [done|]. split; constructor; done.
Qed.

Lemma std_partition_spec l lo hi :
  std_partition pred l = (lo, hi) ->
  l ≡ₚ lo ++ hi /\
  Forall (fun v => pred v = true) lo /\
  Forall (fun v => pred v = false) hi.
Proof. by apply partition_loop_spec. Qed.

Lemma std_partition_length l :
  length (std_partition pred l).1 + length (std_partition pred l).2 = length l.
Proof.
  destruct (std_partition pred l) as [lo hi] eqn:E.
  apply std_partition_spec in E as (Hp & _). cbn. by rewrite Hp, length_app.
Qed.

Lemma filter_all (P : T -> Prop) `{!forall x, Decision (P x)} l :
  Forall P l -> filter P l = l.
Proof.
  induction 1 as [|x l Hx _ IH]; [done|]. by rewrite filter_cons_True, IH.
Qed.

Lemma filter_none (P : T -> Prop) `{!forall x, Decision (P x)} l :
  Forall (fun x => ~ P x) l -> filter P l = [].
Proof.
  induction 1 as [|x l Hx _ IH]; [done|]. by rewrite filter_cons_False.
Qed.

(** Each group holds exactly the elements of the input on its side of the
    predicate, in some order. *)
Lemma std_partition_groups l lo hi :
  std_partition pred l = (lo, hi) ->
  lo ≡ₚ filter (fun v => pred v = true) l /\
  hi ≡ₚ filter (fun v => pred v = false) l.
Proof.
  intros (Hp & Hlo & Hhi)%std_partition_spec. split.
  - rewrite Hp, filter_app, (filter_all _ lo Hlo), filter_none, app_nil_r; [done|].
    eapply Forall_impl; [exact Hhi|]. cbn. congruence.
  - rewrite Hp, filter_app, (filter_all _ hi Hhi), filter_none; [done|].
    eapply Forall_impl; [exact Hlo|]. cbn. congruence.
Qed.
End partition_properties.

(** ** The sorter *)

Section sorter_properties.
Context {T : Type} (lt : T -> T -> bool).
Implicit Types (l out lo hi lower higher : list T) (w : sorter T)
  (t : thread_id) (al : list (addr * chunk_to_sort T)).

Lemma sorts_to_exists l : exists out, sorts_to lt l out.
Proof.
  remember (length l) as n eqn:Hn. revert l Hn.
  induction n as [n IH] using lt_wf_ind; intros [|p rest] Hn.
  - exists []. constructor.
  - cbn in Hn. pose proof (std_partition_length (fun val => lt val p) rest) as Hlen.
    destruct (IH (length (std_partition (fun val => lt val p) rest).1)
      ltac:(lia) _ eq_refl) as [lo Hlo].
    destruct (IH (length (std_partition (fun val => lt val p) rest).2)
      ltac:(lia) _ eq_refl) as [hi Hhi].
    exists (lo ++ p :: hi). by constructor.
Qed.

Lemma sorts_to_functional l out out' :
  sorts_to lt l out -> sorts_to lt l out' -> out = out'.
Proof.
  intros H. revert out'. induction H as [|p rest lo hi _ IHlo _ IHhi]; intros out' H'.
  - by inversion H'.
  - inversion H' as [|? ? lo' hi' Hlo' Hhi']; subst.
    by rewrite (IHlo _ Hlo'), (IHhi _ Hhi').
Qed.

Lemma sorts_to_perm l out : sorts_to lt l out -> l ≡ₚ out.
Proof.
  induction 1 as [|p rest lo hi _ IHlo _ IHhi]; [done|].
  destruct (std_partition (fun val => lt val p) rest) as [lower higher] eqn:E.
  apply std_partition_spec in E as (Hp & _ & _). cbn in IHlo, IHhi.
  rewrite <- Permutation_middle. constructor. by rewrite Hp, IHlo, IHhi.
Qed.

(** With an irreflexive and transitive [lt], no element of the output is
    less than one before it. *)
Lemma sorts_to_sorted l out :
  (forall a, lt a a = false) ->
  (forall a b c, lt a b = true -> lt b c = true -> lt a c = true) ->
  sorts_to lt l out ->
  StronglySorted (fun a b => lt b a = false) out.
Proof.
  intros Hirr Htrans. induction 1 as [|p rest lo hi Hlo IHlo Hhi IHhi]; [constructor|].
  destruct (std_partition (fun val => lt val p) rest) as [lower higher] eqn:E.
  apply std_partition_spec in E as (_ & Hlower & Hhigher). cbn in *.
  apply sorts_to_perm in Hlo, Hhi. rewrite Hlo in Hlower. rewrite Hhi in Hhigher.
  clear Hlo Hhi. induction IHlo as [|a lo Hss IH Hall]; cbn.
  - by constructor.
  - apply Forall_cons in Hlower as [Ha Hlower]. constructor; [by apply IH|].
    apply Forall_app. split; [done|]. constructor.
    + destruct (lt p a) eqn:Hpa; [|done].
      pose proof (Hirr a) as Haa. by rewrite (Htrans _ _ _ Ha Hpa) in Haa.
    + eapply Forall_impl; [exact Hhigher|]. intros b Hb. cbn in Hb.
      destruct (lt b a) eqn:Hba; [|done]. by rewrite (Htrans _ _ _ Hba Ha) in Hb.
Qed.

Lemma can_acquire_frame {A} t (s s' : state A) :
  hazard s' = hazard s -> hazard_pointers s' = hazard_pointers s ->
  can_acquire t s -> can_acquire t s'.
Proof.
  unfold can_acquire, has_free_slot, slots. by intros -> ->.
Qed.

(** The four functions, one step unfolded. *)
Lemma do_sort_S fuel t p rest w :
  do_sort lt (S fuel) t (p :: rest) w
  = let lower := (std_partition (fun val => lt val p) rest).1 in
    let higher := (std_partition (fun val => lt val p) rest).2 in
    bind (do_sort lt fuel t higher) (fun new_higher =>
      bind (help_until_ready lt fuel t (offload lower w).1) (fun _ =>
        bind (future_get (offload lower w).1) (fun new_lower =>
          Ret (new_lower ++ p :: new_higher))))
      (grow_pool (offload lower w).2).
Proof.
  cbn [do_sort]. by destruct (std_partition (fun val => lt val p) rest).
Qed.

Lemma help_until_ready_S fuel t fut w :
  help_until_ready lt (S fuel) t fut w
  = if is_ready fut w then Ret tt w
    else bind (try_sort_chunk lt fuel t)
           (fun _ => help_until_ready lt fuel t fut) w.
Proof. reflexivity. Qed.

Lemma try_sort_chunk_S fuel t w :
  try_sort_chunk lt (S fuel) t w
  = bind (on_chunks (pop t)) (fun chunk =>
      match chunk with
      | Some chunk => sort_chunk lt fuel t chunk
      | None => Ret tt
      end) w.
Proof. reflexivity. Qed.

Lemma sort_chunk_S fuel t chunk w :
  sort_chunk lt (S fuel) t chunk w
  = bind (do_sort lt fuel t (data chunk)) (set_value (promise chunk)) w.
Proof. reflexivity. Qed.

Lemma offload_promises lower w :
  promises (offload lower w).2 = <[(offload lower w).1 := None]> (promises w) /\
  promises w !! (offload lower w).1 = None.
Proof.
  split; [done|]. cbn. apply not_elem_of_dom. apply is_fresh.
Qed.

Lemma offload_chunks lower w :
  chunks (offload lower w).2 = push (Chunk lower (offload lower w).1) (chunks w).
Proof. done. Qed.

Lemma grow_pool_frame w :
  chunks (grow_pool w) = chunks w /\ promises (grow_pool w) = promises w /\
  max_thread_count (grow_pool w) = max_thread_count w.
Proof. unfold grow_pool. by case_decide. Qed.

Lemma grow_pool_capped w :
  (max_thread_count w <= Z.of_nat (threads w))%Z ->
  threads (grow_pool w) = threads w.
Proof. unfold grow_pool. intros. case_decide; [lia | done]. Qed.

(** One call of [do_sort] leaves the stack as it found it, keeps every
    promise that existed, and returns the value [sorts_to] describes: the
    chunk it pushes is the one it pops back in its waiting loop.  Where the
    cap is reached, the vector of threads does not grow. *)
Lemma do_sort_spec t l out :
  sorts_to lt l out ->
  forall fuel w al,
    enough (length l) <= fuel ->
    stack_inv (chunks w) al -> can_acquire t (chunks w) ->
    exists w',
      do_sort lt fuel t l w = Ret out w' /\
      stack_inv (chunks w') al /\
      can_acquire t (chunks w') /\
      promises w ⊆ promises w' /\
      max_thread_count w' = max_thread_count w /\
      ((max_thread_count w <= Z.of_nat (threads w))%Z -> threads w' = threads w).
Proof.
  unfold enough.
  induction 1 as [|p rest lo hi Hlo IHlo Hhi IHhi]; intros fuel w al Hfuel Hinv Hacq.
  - destruct fuel as [|fuel]; [cbn in Hfuel; lia|]. by exists w.
  - pose proof (std_partition_length (fun val => lt val p) rest) as Hlen.
    cbn [length] in Hfuel.
    destruct fuel as [|fuel]; [lia|]. rewrite do_sort_S. cbv zeta.
    set (lower := (std_partition (fun val => lt val p) rest).1) in *.
    set (higher := (std_partition (fun val => lt val p) rest).2) in *.
    destruct (offload_promises lower w) as [Hprom Hfresh].
    pose proof (offload_chunks lower w) as Hch.
    set (fut := (offload lower w).1) in *.
    destruct (grow_pool_frame (offload lower w).2) as (Hgc & Hgp & Hgm).
    pose proof (grow_pool_capped (offload lower w).2) as Hgt.
    set (w1 := grow_pool (offload lower w).2) in *.
    set (c := Chunk lower fut) in *.
    (* the higher group, sorted at once *)
    destruct (IHhi fuel w1 ((new_node (chunks w), c) :: al))
      as (w2 & Hrun2 & Hinv2 & Hacq2 & Hsub2 & Hmax2 & Hthr2).
    { lia. }
    { rewrite Hgc, Hch. by apply push_inv. }
    { rewrite Hgc, Hch. by eapply can_acquire_frame; [| |exact Hacq]. }
    unfold bind at 1. rewrite Hrun2.
    assert (promises w2 !! fut = Some None) as Hpend.
    { eapply lookup_weaken; [|exact Hsub2]. rewrite Hgp, Hprom. apply lookup_insert_eq. }
    (* the waiting loop pops the chunk that was pushed above *)
    destruct fuel as [|fuel]; [lia|]. unfold bind at 1. rewrite help_until_ready_S.
    unfold is_ready at 1. rewrite Hpend.
    destruct fuel as [|fuel]; [lia|]. unfold bind at 1. rewrite try_sort_chunk_S.
    destruct (pop_inv t _ _ _ _ Hinv2 Hacq2) as (c3 & Hpop & Hinv3 & Hsome3).
    unfold bind at 1, on_chunks. rewrite Hpop.
    destruct fuel as [|fuel]; [lia|]. rewrite sort_chunk_S. cbn [data promise c].
    destruct (IHlo fuel (set_chunks c3 w2) al)
      as (w4 & Hrun4 & Hinv4 & Hacq4 & Hsub4 & Hmax4 & Hthr4).
    { lia. }
    { done. }
    { by left. }
    unfold bind at 1. rewrite Hrun4.
    assert (promises w4 !! fut = Some None) as Hpend4.
    { eapply lookup_weaken; [|exact Hsub4]. done. }
    unfold set_value. rewrite Hpend4.
    rewrite help_until_ready_S. unfold is_ready. cbn [promises set_promises].
    rewrite lookup_insert_eq. unfold bind, future_get. cbn [promises set_promises].
    rewrite lookup_insert_eq. eexists. split; [reflexivity|].
    split; [done|]. split; [done|]. split; [|split].
    + cbn [promises set_promises].
      apply map_subseteq_spec. intros i x Hi.
      assert (i <> fut) by congruence.
      rewrite lookup_insert_ne by done.
      eapply lookup_weaken; [|exact Hsub4]. cbn [promises set_chunks].
      eapply lookup_weaken; [|exact Hsub2]. rewrite Hgp, Hprom.
      by rewrite lookup_insert_ne.
    + cbn in *. congruence.
    + intros Hcap. cbn in *. rewrite Hthr4, Hthr2, Hgt; [done|done| |]; lia.
Qed.

Lemma bind_Ret {S A B} (m : S -> outcome S A) (k : A -> S -> outcome S B) s r s' :
  bind m k s = Ret r s' ->
  exists a s1, m s = Ret a s1 /\ k a s1 = Ret r s'.
Proof. unfold bind. destruct (m s) as [a s1| | |]; [eauto | done..]. Qed.

Lemma bind_Ret_intro {S A B} (m : S -> outcome S A) (k : A -> S -> outcome S B)
    s a s1 :
  m s = Ret a s1 -> bind m k s = k a s1.
Proof. unfold bind. by intros ->. Qed.

(** More fuel does not change what a call returns. *)
Lemma fuel_step fuel :
  (forall t l w r w',
     do_sort lt fuel t l w = Ret r w' -> do_sort lt (S fuel) t l w = Ret r w') /\
  (forall t fut w r w',
     help_until_ready lt fuel t fut w = Ret r w' ->
     help_until_ready lt (S fuel) t fut w = Ret r w') /\
  (forall t w r w',
     try_sort_chunk lt fuel t w = Ret r w' ->
     try_sort_chunk lt (S fuel) t w = Ret r w') /\
  (forall t c w r w',
     sort_chunk lt fuel t c w = Ret r w' ->
     sort_chunk lt (S fuel) t c w = Ret r w').
Proof.
  induction fuel as [|fuel (IHd & IHh & IHt & IHs)]; [by repeat split|].
  repeat split.
  - intros t [|p rest] w r w' H; [done|].
    rewrite do_sort_S in H. rewrite do_sort_S. cbv zeta in *.
    apply bind_Ret in H as (nh & w2 & H1 & H).
    apply bind_Ret in H as ([] & w3 & H2 & H).
    rewrite (bind_Ret_intro _ _ _ _ _ (IHd _ _ _ _ _ H1)).
    by rewrite (bind_Ret_intro _ _ _ _ _ (IHh _ _ _ _ _ H2)).
  - intros t fut w r w' H.
    rewrite help_until_ready_S in H. rewrite help_until_ready_S.
    destruct (is_ready fut w); [done|].
    apply bind_Ret in H as ([] & w2 & H1 & H).
    rewrite (bind_Ret_intro _ _ _ _ _ (IHt _ _ _ _ H1)). by apply IHh.
  - intros t w r w' H.
    rewrite try_sort_chunk_S in H. rewrite try_sort_chunk_S.
    apply bind_Ret in H as (c & w2 & H1 & H).
    rewrite (bind_Ret_intro _ _ _ _ _ H1).
    destruct c as [c|]; [by apply IHs | done].
  - intros t c w r w' H.
    rewrite sort_chunk_S in H. rewrite sort_chunk_S.
    apply bind_Ret in H as (r1 & w2 & H1 & H).
    by rewrite (bind_Ret_intro _ _ _ _ _ (IHd _ _ _ _ _ H1)).
Qed.

Lemma do_sort_fuel_mono fuel fuel' t l w r w' :
  fuel <= fuel' ->
  do_sort lt fuel t l w = Ret r w' -> do_sort lt fuel' t l w = Ret r w'.
Proof.
  induction 1 as [|fuel' _ IH]; [done|].
  intros H. by apply fuel_step, IH.
Qed.

Lemma parallel_quick_sort_spec t hw input out (g : state (chunk_to_sort T)) :
  sorts_to lt input out ->
  reclaim_sound g -> can_acquire t g ->
  forall fuel, enough (length input) <= fuel ->
    exists g', parallel_quick_sort lt fuel hw t input g = Ret out g'.
Proof.
  intros Hs Hr Hacq fuel Hfuel. unfold parallel_quick_sort.
  destruct input as [|p rest]; [inversion Hs; eauto|].
  destruct (do_sort_spec t _ _ Hs fuel (sorter_new hw g) [] Hfuel)
    as (w' & -> & _); [by apply stack_inv_empty | done | eauto].
Qed.

(** Whatever fuel it is given, [parallel_quick_sort] returns no other list
    than the one [sorts_to] describes. *)
Lemma parallel_quick_sort_unique t hw input out (g : state (chunk_to_sort T)) :
  sorts_to lt input out ->
  reclaim_sound g -> can_acquire t g ->
  forall fuel out' g',
    parallel_quick_sort lt fuel hw t input g = Ret out' g' -> out' = out.
Proof.
  intros Hs Hr Hacq fuel out' g' Hrun.
  destruct (parallel_quick_sort_spec t hw input out g Hs Hr Hacq
    (fuel + enough (length input)) ltac:(lia)) as [g2 Hrun2].
  unfold parallel_quick_sort in *.
  destruct input as [|p rest]; [congruence|].
  destruct (do_sort lt fuel t (p :: rest) (sorter_new hw g))
    as [r w| | |] eqn:E; try done.
  rewrite (do_sort_fuel_mono fuel (fuel + enough (length (p :: rest))) _ _ _ _ _
    ltac:(lia) E) in Hrun2. congruence.
Qed.

Lemma do_sort_nil fuel t w : do_sort lt (S fuel) t [] w = Ret [] w.
Proof. reflexivity. Qed.

(** With the table exhausted and no slot of its own, the thread that sorts a
    non-empty list reaches the [pop] of its waiting loop, which throws.  The
    statement is for a sorter at its cap, which creates no thread: the
    calling thread is then the only one that runs.  Up to the exception the
    free store has only grown, and the node on top of the stack is one this
    call allocated. *)
Lemma do_sort_exhausted t l :
  forall fuel w,
    l <> [] -> length l + 2 <= fuel ->
    (max_thread_count w <= Z.of_nat (threads w))%Z ->
    hazard (chunks w) !! t = None -> table_exhausted (chunks w) ->
    exists w' a,
      do_sort lt fuel t l w = Throw runtime_error_no_hazard_pointers w' /\
      threads w' = threads w /\
      heap (chunks w) ⊆ heap (chunks w') /\
      nodes_to_reclaim (chunks w') = nodes_to_reclaim (chunks w) /\
      stack_head (chunks w') = Some a /\
      is_Some (heap (chunks w') !! a) /\
      heap (chunks w) !! a = None.
Proof.
  remember (length l) as n eqn:Hn. revert l Hn.
  induction n as [n IH] using lt_wf_ind.
  intros [|p rest] Hn fuel w Hne Hfuel Hcap Ht Hfull; [done|]. cbn in Hn.
  pose proof (std_partition_length (fun val => lt val p) rest) as Hlen.
  destruct fuel as [|fuel]; [lia|]. rewrite do_sort_S. cbv zeta.
  set (lower := (std_partition (fun val => lt val p) rest).1) in *.
  set (higher := (std_partition (fun val => lt val p) rest).2) in *.
  destruct (offload_promises lower w) as [Hprom Hfresh].
  pose proof (offload_chunks lower w) as Hch.
  set (fut := (offload lower w).1) in *.
  destruct (grow_pool_frame (offload lower w).2) as (Hgc & Hgp & Hgm).
  pose proof (grow_pool_capped (offload lower w).2 Hcap) as Hgt.
  change (threads (offload lower w).2) with (threads w) in Hgt.
  change (max_thread_count (offload lower w).2) with (max_thread_count w) in Hgm.
  set (w1 := grow_pool (offload lower w).2) in *.
  assert (heap (chunks w) !! new_node (chunks w) = None) as Hnew
    by apply not_elem_of_dom, is_fresh.
  assert (heap (chunks w) ⊆ heap (chunks w1)) as Hgrow.
  { rewrite Hgc, Hch. cbn. by apply insert_subseteq. }
  assert (nodes_to_reclaim (chunks w1) = nodes_to_reclaim (chunks w)) as Hrl.
  { by rewrite Hgc, Hch. }
  assert (hazard (chunks w1) !! t = None) as Ht1 by (by rewrite Hgc, Hch).
  assert (table_exhausted (chunks w1)) as Hfull1 by (by rewrite Hgc, Hch).
  destruct higher as [|q higher'] eqn:Hhigher.
  - destruct fuel as [|fuel]; [lia|]. unfold bind at 1. rewrite do_sort_nil.
    unfold bind at 1. rewrite help_until_ready_S. unfold is_ready.
    rewrite Hgp, Hprom, lookup_insert_eq.
    destruct fuel as [|fuel]; [lia|]. unfold bind at 1. rewrite try_sort_chunk_S.
    unfold bind, on_chunks. rewrite (pop_exhausted t _ Ht1 Hfull1).
    eexists _, (new_node (chunks w)). split; [reflexivity|].
    cbn [chunks set_chunks threads]. split; [done|]. split; [done|].
    split; [done|]. rewrite Hgc, Hch. cbn. rewrite lookup_insert_eq. eauto.
  - destruct (IH (length (q :: higher')) ltac:(cbn in *; lia) _ eq_refl fuel w1)
      as (w2 & a & Hrun & Hthr & Hsub & Hrl2 & Hhd & Hsome & Hnone);
      [done | cbn in *; lia | lia | done | done |].
    unfold bind at 1. rewrite Hrun. exists w2, a. split; [reflexivity|].
    split; [congruence|]. split; [by etrans|]. split; [congruence|].
    split; [done|]. split; [done|].
    destruct (heap (chunks w) !! a) as [nd|] eqn:E; [|done].
    by rewrite (lookup_weaken _ _ _ _ E Hgrow) in Hnone.
Qed.

(** A worker that first runs once the flag is set returns at its first
    test, which is what [sorter_destroy] relies on. *)
Lemma sort_thread_after_shutdown fuel t w :
  sort_thread lt (S fuel) t (sorter_destroy w) = Ret tt (sorter_destroy w).
Proof. reflexivity. Qed.

(** A worker that runs earlier starts with a [pop]; with the table exhausted
    the exception leaves [sort_thread]. *)
Lemma sort_thread_exhausted fuel t w :
  end_of_data w = false ->
  hazard (chunks w) !! t = None -> table_exhausted (chunks w) ->
  exists w',
    sort_thread lt (S (S fuel)) t w = Throw runtime_error_no_hazard_pointers w'.
Proof.
  intros Hflag Ht Hfull. cbn [sort_thread]. rewrite Hflag.
  unfold bind at 1. rewrite try_sort_chunk_S. unfold bind, on_chunks.
  rewrite (pop_exhausted t _ Ht Hfull). eauto.
Qed.

Lemma strongly_sorted_adjacent (R : T -> T -> Prop) out :
  StronglySorted R out ->
  forall i a b, out !! i = Some a -> out !! S i = Some b -> R a b.
Proof.
  induction 1 as [|x out Hs IH Hall]; intros i a b Ha Hb; [done|].
  destruct i as [|i]; [|by eapply IH].
  cbn in Ha, Hb. injection Ha as ->. rewrite Forall_forall in Hall.
  apply Hall. by eapply list_elem_of_lookup_2.
Qed.
End sorter_properties.

(** ** What a sweep of the reclamation list does *)

Lemma sweep_table {A} (s : state A) :
  hazard_pointers (delete_nodes_with_no_hazards s) = hazard_pointers s /\
  hazard (delete_nodes_with_no_hazards s) = hazard s /\
  stack_head (delete_nodes_with_no_hazards s) = stack_head s.
Proof.
  unfold delete_nodes_with_no_hazards.
  destruct (reclaim_loop_frame (nodes_to_reclaim s) (set_nodes_to_reclaim [] s))
    as (-> & -> & ->). done.
Qed.

Lemma protected_frame {A} p (s s' : state A) :
  hazard_pointers s' = hazard_pointers s -> protected p s' <-> protected p s.
Proof. unfold protected, slots. by intros ->. Qed.

Lemma sweep_list {A} (s : state A) a :
  a ∈ nodes_to_reclaim (delete_nodes_with_no_hazards s) <->
  a ∈ nodes_to_reclaim s /\ protected a s.
Proof.
  unfold delete_nodes_with_no_hazards. rewrite reclaim_loop_list. cbn.
  rewrite app_nil_r, elem_of_reverse, list_elem_of_filter.
  rewrite (outstanding_frame a s (set_nodes_to_reclaim [] s)) by done.
  rewrite outstanding_protected. tauto.
Qed.

Lemma sweep_heap {A} (s : state A) a :
  heap (delete_nodes_with_no_hazards s) !! a
  = if decide (a ∈ nodes_to_reclaim s /\ ~ protected a s)
    then None else heap s !! a.
Proof.
  unfold delete_nodes_with_no_hazards. rewrite reclaim_loop_heap. cbn.
  rewrite (outstanding_frame a s (set_nodes_to_reclaim [] s)) by done.
  destruct (decide (a ∈ nodes_to_reclaim s /\ ~ protected a s)) as [[? Hn]|Hn].
  - rewrite decide_True; [done|]. split; [done|].
    by apply outstanding_not_protected.
  - rewrite decide_False; [done|]. intros [? ?%outstanding_not_protected].
    by apply Hn.
Qed.

(** * The properties of the specification *)

(** Decides a decidable statement about a concrete state by evaluation. *)
Ltac by_computation := apply (bool_decide_unpack _); vm_compute; reflexivity.

(** ** The lock-free stack *)

(** C8. Stack LIFO under no contention: on an empty stack, pushing [p1],
    [p2], [p3] and popping three times returns [p3], then [p2], then [p1],
    and a fourth [pop] returns the empty pointer. *)
Theorem stack_lifo {A} t (s : state A) (p1 p2 p3 : A) :
  stack_head s = None -> reclaim_sound s -> can_acquire t s ->
  exists s1 s2 s3 s4,
    pop t (push p3 (push p2 (push p1 s))) = Ret (Some p3) s1 /\
    pop t s1 = Ret (Some p2) s2 /\
    pop t s2 = Ret (Some p1) s3 /\
    pop t s3 = Ret None s4.
Proof.
  intros Hh Hr Hacq.
  pose proof (stack_inv_empty s Hh Hr) as H0.
  apply (push_inv _ _ p1) in H0. apply (push_inv _ _ p2) in H0.
  apply (push_inv _ _ p3) in H0.
  destruct (pop_inv t _ _ _ _ H0) as (s1 & Hp1 & H1 & Hs1).
  { by eapply can_acquire_frame; [| |exact Hacq]. }
  destruct (pop_inv t _ _ _ _ H1) as (s2 & Hp2 & H2 & Hs2); [by left|].
  destruct (pop_inv t _ _ _ _ H2) as (s3 & Hp3 & H3 & Hs3); [by left|].
  destruct (pop_empty t s3) as (s4 & Hp4 & _).
  { destruct H3 as [Hc _ _ _]. by inversion Hc. }
  { by left. }
  by exists s1, s2, s3, s4.
Qed.

Lemma stack_lifo_witness :
  exists s1 s2 s3 s4,
    pop 0 (push 30 (push 20 (push 10 (initial_state nat)))) = Ret (Some 30) s1 /\
    pop 0 s1 = Ret (Some 20) s2 /\
    pop 0 s2 = Ret (Some 10) s3 /\
    pop 0 s3 = Ret None s4.
Proof.
  apply (stack_lifo 0 (initial_state nat) 10 20 30).
  - reflexivity.
  - split; constructor.
  - right. by_computation.
Defined.

(** C6. A node is freed only while no hazard slot holds its address.  For
    the node [pop] has unlinked: it is deferred (put on the reclamation list,
    still allocated) when some slot holds its address and freed at once when
    none does.  For the free store as a whole: whatever this [pop] frees is
    held by no slot.  For the sweep: an entry of the reclamation list that
    some slot still holds is on the list again afterwards, and not freed; and
    [delete_nodes_with_no_hazards], from any state, changes the free store
    only at entries of the list that no slot holds, and keeps the others on
    the list. *)
Theorem pop_frees_only_unprotected {A} t (s : state A) r s' :
  pop t s = Ret r s' ->
  (forall a, stack_head s = Some a ->
     (protected a s' -> a ∈ nodes_to_reclaim s' /\ is_Some (heap s' !! a)) /\
     (~ protected a s' -> heap s' !! a = None)) /\
  (forall a, is_Some (heap s !! a) -> heap s' !! a = None -> ~ protected a s') /\
  (forall a, a ∈ nodes_to_reclaim s -> protected a s' ->
     a ∈ nodes_to_reclaim s' /\ (is_Some (heap s !! a) -> is_Some (heap s' !! a))) /\
  (forall (s0 : state A) a,
     (heap (delete_nodes_with_no_hazards s0) !! a <> heap s0 !! a ->
      a ∈ nodes_to_reclaim s0 /\ ~ protected a s0) /\
     (a ∈ nodes_to_reclaim s0 -> protected a s0 ->
      a ∈ nodes_to_reclaim (delete_nodes_with_no_hazards s0) /\
      heap (delete_nodes_with_no_hazards s0) !! a = heap s0 !! a)).
Proof.
  intros Hpop.
  cut ((forall a, stack_head s = Some a ->
     (protected a s' -> a ∈ nodes_to_reclaim s' /\ is_Some (heap s' !! a)) /\
     (~ protected a s' -> heap s' !! a = None)) /\
  (forall a, is_Some (heap s !! a) -> heap s' !! a = None -> ~ protected a s') /\
  (forall a, a ∈ nodes_to_reclaim s -> protected a s' ->
     a ∈ nodes_to_reclaim s' /\ (is_Some (heap s !! a) -> is_Some (heap s' !! a)))).
  { intros (H1 & H2 & H3). split; [exact H1|]. split; [exact H2|].
    split; [exact H3|]. intros s0 a. split.
    - intros Hne. rewrite sweep_heap in Hne.
      destruct (decide (a ∈ nodes_to_reclaim s0 /\ ~ protected a s0)); done.
    - intros Hin Hpa. split; [by apply sweep_list|].
      rewrite sweep_heap, decide_False; [done|]. by intros [_ Hn]. }
  unfold pop in Hpop.
  destruct (get_hazard_pointer_for_current_thread t s) as [i s0| | |] eqn:Hget;
    try done.
  destruct (get_hazard_acquire t s (get_hazard_Ret _ _ _ _ Hget))
    as (i' & s0' & Hget' & _ & Hh & Hr & Hp).
  rewrite Hget in Hget'. injection Hget' as <- <-.
  destruct (stack_head s0) as [p|] eqn:Hhd.
  - change (heap (hp_store i (Some p) s0)) with (heap s0) in Hpop.
    destruct (heap s0 !! p) as [nd|] eqn:Hnd; [|done].
    injection Hpop as <- <-.
    set (s4 := set_heap _ _).
    assert (hazard_pointers (if outstanding_hazard_pointers_for p s4
      then reclaim_later p s4 else do_delete p s4) = hazard_pointers s4) as Htbl
      by (by destruct (outstanding_hazard_pointers_for p s4)).
    assert (forall a, protected a (delete_nodes_with_no_hazards
      (if outstanding_hazard_pointers_for p s4
       then reclaim_later p s4 else do_delete p s4)) <-> protected a s4) as Hprot.
    { intros a. rewrite <- (protected_frame a _ _ Htbl).
      apply protected_frame. apply sweep_table. }
    assert (heap s4 = <[p := Node None (node_next nd)]> (heap s)) as Hheap4
      by (by rewrite <- Hp).
    assert (nodes_to_reclaim s4 = nodes_to_reclaim s) as Hlist4 by done.
    destruct (outstanding_hazard_pointers_for p s4) eqn:Hout.
    + apply outstanding_protected in Hout.
      assert (forall a, protected a (reclaim_later p s4) <-> protected a s4) as Hp5
        by (intros a; by apply protected_frame).
      split; [|split].
      * intros a Ha. assert (a = p) as -> by congruence.
        split; [|intros Hn; by apply Hprot in Hout].
        intros _. split.
        -- apply sweep_list. split; [by left | by apply Hp5].
        -- rewrite sweep_heap, decide_False by (intros [_ Hn]; by apply Hn, Hp5).
           cbn. rewrite lookup_insert_eq. eauto.
      * intros a Hsome Hnone Hpa. apply Hprot in Hpa.
        rewrite sweep_heap, decide_False in Hnone by (intros [_ Hn]; by apply Hn, Hp5).
        cbn in Hnone. rewrite Hp in Hnone.
        apply lookup_insert_None in Hnone as [Hnone _].
        rewrite Hnone in Hsome. by destruct Hsome.
      * intros a Hin Hpa. apply Hprot in Hpa. split.
        -- apply sweep_list. split; [cbn; right; by rewrite Hr | by apply Hp5].
        -- intros Hsome.
           rewrite sweep_heap, decide_False by (intros [_ Hn]; by apply Hn, Hp5).
           cbn. rewrite Hp. by apply lookup_insert_is_Some'; right.
    + apply outstanding_not_protected in Hout.
      assert (forall a, protected a (do_delete p s4) <-> protected a s4) as Hp5
        by (intros a; by apply protected_frame).
      split; [|split].
      * intros a Ha. assert (a = p) as -> by congruence.
        split; [intros Hpa; by apply Hprot in Hpa|].
        intros _. rewrite sweep_heap. case_decide; [done|].
        cbn. by rewrite lookup_delete_eq.
      * intros a Hsome Hnone Hpa. apply Hprot in Hpa.
        rewrite sweep_heap, decide_False in Hnone by (intros [_ Hn]; by apply Hn, Hp5).
        cbn in Hnone. rewrite Hp in Hnone.
        destruct (decide (a = p)) as [->|Hne]; [done|].
        rewrite lookup_delete_ne, lookup_insert_ne in Hnone by done.
        rewrite Hnone in Hsome. by destruct Hsome.
      * intros a Hin Hpa. apply Hprot in Hpa. split.
        -- apply sweep_list. split; [by cbn; rewrite Hr | by apply Hp5].
        -- intros Hsome.
           rewrite sweep_heap, decide_False by (intros [_ Hn]; by apply Hn, Hp5).
           cbn. rewrite Hp. assert (a <> p) by (by intros ->).
           by rewrite lookup_delete_ne, lookup_insert_ne.
  - injection Hpop as <- <-. split; [|split].
    + intros a Ha. congruence.
    + intros a Hsome Hnone. cbn in Hnone. rewrite <- Hp, Hnone in Hsome.
      by destruct Hsome.
    + intros a Hin _. cbn. rewrite Hr, Hp. done.
Qed.

Lemma pop_frees_only_unprotected_witness :
  protected 0 contended_after /\
  0 ∈ nodes_to_reclaim contended_after /\
  is_Some (heap contended_after !! 0).
Proof.
  assert (pop 1 contended_state = Ret (Some 7) contended_after) as Hpop
    by (vm_compute; reflexivity).
  assert (protected 0 contended_after) as Hprot
    by by_computation.
  split; [exact Hprot|].
  apply (pop_frees_only_unprotected 1 contended_state (Some 7) contended_after Hpop);
    [reflexivity | exact Hprot].
Defined.

(** C5, as stated, fails twice.  At a [push]: with the table exhausted,
    the first stack operation of a thread that is a [push] returns; it
    acquires no slot.  In a worker: the thread that [do_sort] has created at
    its first partition step fails at its first [pop], and the exception
    leaves [sort_thread], where nothing catches it, so that it does not reach
    the caller of the sort. *)
Lemma exhaustion_not_surfaced_as_claimed :
  ~ first_operation_fails 0 (exhausted_state nat) (op_push 5) /\
  ~ worker_failure_contained Z.ltb 2 1 spawned_on_exhausted.
Proof.
  split.
  - intros H. destruct H as [s' H].
    + reflexivity.
    + by_computation.
    + discriminate H.
  - intros H.
    destruct (sort_thread_exhausted Z.ltb 0 1 spawned_on_exhausted) as [w' Hw'].
    + reflexivity.
    + reflexivity.
    + by_computation.
    + exact (H _ _ Hw').
Qed.

(** C5, amended. With the table exhausted and no slot of its own, the first
    [pop] of a thread throws and changes nothing, while [push] returns
    without acquiring a slot.  In a sort whose sorter creates no thread (the
    cap is zero) the exception thrown by the [pop] in the waiting loop of
    [do_sort] reaches the caller of [parallel_quick_sort], with no thread
    created and nothing freed on the way.  In a worker the exception leaves
    [sort_thread]. *)
Theorem exhaustion_surfaces_at_first_pop {T} (lt : T -> T -> bool) hw t
    (input : list T) (g : state (chunk_to_sort T)) :
  hazard g !! t = None -> table_exhausted g -> input <> [] ->
  max_thread_count (sorter_new hw g) = 0%Z ->
  pop t g = Throw runtime_error_no_hazard_pointers g /\
  (forall c, exists g', run_op t (op_push c) g = Ret None g') /\
  (forall fuel, enough (length input) <= fuel ->
     exists w',
       do_sort lt fuel t input (sorter_new hw g)
       = Throw runtime_error_no_hazard_pointers w' /\
       threads w' = 0 /\
       parallel_quick_sort lt fuel hw t input g
       = Throw runtime_error_no_hazard_pointers (chunks (sorter_destroy w')) /\
       heap g ⊆ heap (chunks w') /\
       nodes_to_reclaim (chunks w') = nodes_to_reclaim g) /\
  (forall (w : sorter T) t' fuel,
     end_of_data w = false ->
     hazard (chunks w) !! t' = None -> table_exhausted (chunks w) ->
     exists w',
       sort_thread lt (S (S fuel)) t' w
       = Throw runtime_error_no_hazard_pointers w').
Proof.
  intros Ht Hfull Hne Hcap. split; [by apply pop_exhausted|].
  split; [by eexists|]. split; [|intros w t' fuel; apply sort_thread_exhausted].
  intros fuel Hfuel. unfold parallel_quick_sort.
  destruct input as [|p rest]; [done|].
  destruct (do_sort_exhausted lt t (p :: rest) fuel (sorter_new hw g))
    as (w' & a & Hrun & Hthr & Hsub & Hlist & _); try done.
  { unfold enough in Hfuel. cbn [length] in *. lia. }
  { rewrite Hcap. cbn. lia. }
  exists w'. rewrite Hrun. by repeat split.
Qed.

Lemma exhaustion_surfaces_at_first_pop_witness :
  pop 0 (exhausted_state (chunk_to_sort Z))
  = Throw runtime_error_no_hazard_pointers (exhausted_state (chunk_to_sort Z)) /\
  exists w',
    do_sort Z.ltb 30 0 [5; 3; 8; 1; 9; 2]%Z (sorter_new 1 (exhausted_state _))
    = Throw runtime_error_no_hazard_pointers w' /\
    threads w' = 0 /\
    parallel_quick_sort Z.ltb 30 1 0 [5; 3; 8; 1; 9; 2]%Z (exhausted_state _)
    = Throw runtime_error_no_hazard_pointers (chunks (sorter_destroy w')).
Proof.
  destruct (exhaustion_surfaces_at_first_pop Z.ltb 1 0 [5; 3; 8; 1; 9; 2]%Z
    (exhausted_state _)) as (Hpop & _ & Hsort & _).
  - reflexivity.
  - by_computation.
  - discriminate.
  - reflexivity.
  - split; [exact Hpop|].
    destruct (Hsort 30) as (w' & H1 & H2 & H3 & _); [unfold enough; cbn; lia|].
    by exists w'.
Defined.

(** ** The sorter *)

(** C1. Count conservation: [parallel_quick_sort] returns, and the list it
    returns has the elements of its input, each as many times as in the
    input. *)
Theorem sort_preserves_multiset {T} (lt : T -> T -> bool) hw t
    (input : list T) (g : state (chunk_to_sort T)) :
  reclaim_sound g -> can_acquire t g ->
  (forall fuel, enough (length input) <= fuel ->
     exists out g', parallel_quick_sort lt fuel hw t input g = Ret out g') /\
  (forall fuel out g',
     parallel_quick_sort lt fuel hw t input g = Ret out g' -> input ≡ₚ out).
Proof.
  intros Hr Hacq. destruct (sorts_to_exists lt input) as [out Hs]. split.
  - intros fuel Hfuel. exists out. by apply parallel_quick_sort_spec.
  - intros fuel out' g' Hrun.
    rewrite (parallel_quick_sort_unique lt t hw input out g Hs Hr Hacq _ _ _ Hrun).
    by eapply sorts_to_perm.
Qed.

Lemma sort_preserves_multiset_witness :
  (forall fuel, enough 6 <= fuel ->
     exists out g',
       parallel_quick_sort Z.ltb fuel 8 0 [5; 3; 8; 1; 9; 2]%Z (initial_state _)
       = Ret out g') /\
  (forall fuel out g',
     parallel_quick_sort Z.ltb fuel 8 0 [5; 3; 8; 1; 9; 2]%Z (initial_state _)
     = Ret out g' ->
     [5; 3; 8; 1; 9; 2]%Z ≡ₚ out).
Proof.
  apply (sort_preserves_multiset Z.ltb 8 0 [5; 3; 8; 1; 9; 2]%Z (initial_state _)).
  - split; constructor.
  - right. by_computation.
Defined.

(** C2. Order correctness: for an irreflexive and transitive [lt] (as every
    strict total order is), [parallel_quick_sort] returns, and in the list it
    returns no element is less than the element before it. *)
Theorem sort_output_non_descending {T} (lt : T -> T -> bool) hw t
    (input : list T) (g : state (chunk_to_sort T)) :
  (forall a, lt a a = false) ->
  (forall a b c, lt a b = true -> lt b c = true -> lt a c = true) ->
  reclaim_sound g -> can_acquire t g ->
  (forall fuel, enough (length input) <= fuel ->
     exists out g', parallel_quick_sort lt fuel hw t input g = Ret out g') /\
  (forall fuel out g',
     parallel_quick_sort lt fuel hw t input g = Ret out g' ->
     forall i a b, out !! i = Some a -> out !! S i = Some b -> lt b a = false).
Proof.
  intros Hirr Htrans Hr Hacq. destruct (sorts_to_exists lt input) as [out Hs].
  split.
  - intros fuel Hfuel. exists out. by apply parallel_quick_sort_spec.
  - intros fuel out' g' Hrun.
    rewrite (parallel_quick_sort_unique lt t hw input out g Hs Hr Hacq _ _ _ Hrun).
    apply (strongly_sorted_adjacent (fun a b => lt b a = false)).
    by eapply sorts_to_sorted.
Qed.

Lemma sort_output_non_descending_witness :
  (forall fuel, enough 6 <= fuel ->
     exists out g',
       parallel_quick_sort Z.ltb fuel 8 0 [5; 3; 8; 1; 9; 2]%Z (initial_state _)
       = Ret out g') /\
  (forall fuel out g',
     parallel_quick_sort Z.ltb fuel 8 0 [5; 3; 8; 1; 9; 2]%Z (initial_state _)
     = Ret out g' ->
     forall i a b, out !! i = Some a -> out !! S i = Some b -> (b <? a)%Z = false).
Proof.
  apply (sort_output_non_descending Z.ltb 8 0 [5; 3; 8; 1; 9; 2]%Z (initial_state _)).
  - intros a. apply Z.ltb_irrefl.
  - intros a b c Hab%Z.ltb_lt Hbc%Z.ltb_lt. apply Z.ltb_lt. lia.
  - split; constructor.
  - right. by_computation.
Defined.

(** C3, as stated, on the list [3; 5; 6; 1]: the pivot is 3, and the
    not-less group comes out as [6; 5], not in the order of the input. *)
Lemma partition_step_not_stable :
  ~ stably_partitioned Z.ltb 3%Z [5; 6; 1]%Z
      (std_partition (fun val => val <? 3)%Z [5; 6; 1]%Z).
Proof. intros [_ H]. vm_compute in H. discriminate H. Qed.

(** C3, amended. The partition step splits the remainder into the elements
    less than the pivot and the elements not less than it, each element in
    its group as many times as in the input; an element equal to the pivot
    is in the not-less group and not in the other.  The order inside a group
    is the one [std::partition] leaves, which need not be that of the
    input. *)
Theorem partition_step_groups {T} (lt : T -> T -> bool) pivot_val
    (rest lower higher : list T) :
  std_partition (fun val => lt val pivot_val) rest = (lower, higher) ->
  lower ≡ₚ filter (fun val => lt val pivot_val = true) rest /\
  higher ≡ₚ filter (fun val => lt val pivot_val = false) rest /\
  (lt pivot_val pivot_val = false ->
   forall v, v ∈ rest -> v = pivot_val -> v ∈ higher /\ v ∉ lower).
Proof.
  intros E. destruct (std_partition_groups _ _ _ _ E) as [Hlo Hhi].
  split; [done|]. split; [done|]. intros Hirr v Hin ->. split.
  - rewrite Hhi. by apply list_elem_of_filter.
  - rewrite Hlo. intros [Hlt _]%list_elem_of_filter. congruence.
Qed.

Lemma partition_step_groups_witness :
  [1]%Z ≡ₚ filter (fun val => (val <? 3)%Z = true) [5; 6; 1]%Z /\
  [6; 5]%Z ≡ₚ filter (fun val => (val <? 3)%Z = false) [5; 6; 1]%Z /\
  ((3 <? 3)%Z = false ->
   forall v, v ∈ [5; 6; 1]%Z -> v = 3%Z -> v ∈ [6; 5]%Z /\ v ∉ [1]%Z).
Proof.
  apply (partition_step_groups Z.ltb 3%Z [5; 6; 1]%Z [1]%Z [6; 5]%Z).
  reflexivity.
Defined.

(** C4. Progress without workers: run by one thread, with no other thread
    ever taking a chunk, [do_sort] returns on every list, from every state
    of the sorter (whatever its cap and whatever else is on the stack) in
    which the stack is well formed and the thread can get a hazard slot.  It
    leaves the stack as it found it, having popped and sorted in its waiting
    loop the chunk it pushed, and where the cap is reached (as it is from the
    start when the cap is zero) it creates no thread.  So
    [parallel_quick_sort] returns too, whatever the hardware reports. *)
Theorem sort_total_without_workers {T} (lt : T -> T -> bool) hw t
    (l : list T) (w : sorter T) al (g : state (chunk_to_sort T)) :
  stack_inv (chunks w) al -> can_acquire t (chunks w) ->
  reclaim_sound g -> can_acquire t g ->
  exists out,
    forall fuel, enough (length l) <= fuel ->
      (exists w',
         do_sort lt fuel t l w = Ret out w' /\
         stack_inv (chunks w') al /\
         ((max_thread_count w <= Z.of_nat (threads w))%Z ->
          threads w' = threads w)) /\
      (exists g', parallel_quick_sort lt fuel hw t l g = Ret out g').
Proof.
  intros Hinv Hacq Hr Hacqg. destruct (sorts_to_exists lt l) as [out Hs].
  exists out. intros fuel Hfuel. split.
  - destruct (do_sort_spec lt t l out Hs fuel w al Hfuel Hinv Hacq)
      as (w' & ? & ? & _ & _ & _ & ?). eauto.
  - by apply parallel_quick_sort_spec.
Qed.

Lemma sort_total_without_workers_witness :
  exists out,
    forall fuel, enough 6 <= fuel ->
      (exists w',
         do_sort Z.ltb fuel 0 [5; 3; 8; 1; 9; 2]%Z (sorter_new 1 (initial_state _))
         = Ret out w' /\
         stack_inv (chunks w') [] /\
         ((0 <= 0)%Z -> threads w' = 0)) /\
      (exists g',
         parallel_quick_sort Z.ltb fuel 1 0 [5; 3; 8; 1; 9; 2]%Z (initial_state _)
         = Ret out g').
Proof.
  apply (sort_total_without_workers Z.ltb 1 0 [5; 3; 8; 1; 9; 2]%Z
    (sorter_new 1 (initial_state _)) [] (initial_state _)).
  - apply stack_inv_empty; [reflexivity | split; constructor].
  - right. by_computation.
  - split; constructor.
  - right. by_computation.
Defined.

(** C7, as stated, on a machine that reports one hardware thread: the cap
    is zero. *)
Lemma default_cap_zero_on_one_core :
  ~ default_cap_as_claimed 1
      (max_thread_count (sorter_new 1 (initial_state (chunk_to_sort Z)))).
Proof. intros [_ H]. vm_compute in H. by apply H. Qed.

(** C7, amended. When [hardware_concurrency()] reports at least one, the
    default cap is that number minus one; it is at least one exactly when
    the number is at least two. *)
Theorem default_max_thread_count {T} (hw : Z) (g : state (chunk_to_sort T)) :
  (1 <= hw < 2 ^ 32)%Z ->
  max_thread_count (sorter_new hw g) = (hw - 1)%Z /\
  ((1 <= max_thread_count (sorter_new hw g))%Z <-> (2 <= hw)%Z).
Proof.
  intros Hhw. cbn. unfold unsigned_sub. rewrite Z.mod_small by lia. lia.
Qed.

Lemma default_max_thread_count_witness :
  max_thread_count (sorter_new 8 (initial_state (chunk_to_sort Z))) = 7%Z /\
  ((1 <= max_thread_count (sorter_new 8 (initial_state (chunk_to_sort Z))))%Z
   <-> (2 <= 8)%Z).
Proof. apply (default_max_thread_count 8 (initial_state (chunk_to_sort Z))). lia. Defined.

(** C9. The pivot is the first element: on [pivot_val :: rest], [do_sort]
    returns the sorted lower group, then [pivot_val], then the sorted higher
    group, the groups being those of the partition of [rest] around
    [pivot_val] and their sorted forms what [do_sort] returns on them. *)
Theorem do_sort_pivot_is_first {T} (lt : T -> T -> bool) t pivot_val
    (rest : list T) (w : sorter T) al fuel :
  enough (length (pivot_val :: rest)) <= fuel ->
  stack_inv (chunks w) al -> can_acquire t (chunks w) ->
  exists lo hi w',
    do_sort_returns lt t (std_partition (fun val => lt val pivot_val) rest).1 lo /\
    do_sort_returns lt t (std_partition (fun val => lt val pivot_val) rest).2 hi /\
    do_sort lt fuel t (pivot_val :: rest) w = Ret (lo ++ pivot_val :: hi) w'.
Proof.
  intros Hfuel Hinv Hacq.
  destruct (sorts_to_exists lt (std_partition (fun val => lt val pivot_val) rest).1)
    as [lo Hlo].
  destruct (sorts_to_exists lt (std_partition (fun val => lt val pivot_val) rest).2)
    as [hi Hhi].
  destruct (do_sort_spec lt t _ _ (sorts_cons lt _ _ _ _ Hlo Hhi) fuel w al
    Hfuel Hinv Hacq) as (w' & Hrun & _).
  exists lo, hi, w'. split; [|split; [|done]].
  - intros fuel1 w1 al1 Hf1 Hi1 Ha1.
    destruct (do_sort_spec lt t _ _ Hlo fuel1 w1 al1 Hf1 Hi1 Ha1) as (w1' & ? & _).
    eauto.
  - intros fuel1 w1 al1 Hf1 Hi1 Ha1.
    destruct (do_sort_spec lt t _ _ Hhi fuel1 w1 al1 Hf1 Hi1 Ha1) as (w1' & ? & _).
    eauto.
Qed.

Lemma do_sort_pivot_is_first_witness :
  exists lo hi w',
    do_sort_returns Z.ltb 0 (std_partition (fun val => val <? 3)%Z [5; 6; 1]%Z).1 lo /\
    do_sort_returns Z.ltb 0 (std_partition (fun val => val <? 3)%Z [5; 6; 1]%Z).2 hi /\
    do_sort Z.ltb 17 0 [3; 5; 6; 1]%Z (sorter_new 8 (initial_state _))
    = Ret (lo ++ 3%Z :: hi) w'.
Proof.
  apply (do_sort_pivot_is_first Z.ltb 0 3%Z [5; 6; 1]%Z
    (sorter_new 8 (initial_state _)) [] 17).
  - vm_compute. lia.
  - apply stack_inv_empty; [reflexivity | split; constructor].
  - right. by_computation.
Defined.

(** * Further properties of the code *)

(** ** The table, slot by slot *)

Section table_lookup.
Context {A : Type}.
Implicit Types (s : state A) (t : thread_id) (p : addr).

Lemma slots_lookup s j h :
  slots s !! j = Some h <->
  j < max_hazard_pointers /\ hazard_pointers s !! j = Some h.
Proof. unfold slots. rewrite lookup_take_Some. tauto. Qed.

Lemma protected_lookup p s :
  protected p s <->
  exists j h, j < max_hazard_pointers /\
    hazard_pointers s !! j = Some h /\ hp_pointer h = Some p.
Proof.
  unfold protected. rewrite Exists_exists. split.
  - intros (h & (j & Hj)%list_elem_of_lookup & Hp).
    apply slots_lookup in Hj as [? ?]. eauto.
  - intros (j & h & Hlt & Hj & Hp). exists h. split; [|done].
    apply list_elem_of_lookup. exists j. by apply slots_lookup.
Qed.

Lemma quiet_lookup s :
  quiet s <->
  forall j h, j < max_hazard_pointers ->
    hazard_pointers s !! j = Some h -> hp_pointer h = None.
Proof.
  unfold quiet. rewrite Forall_lookup. split.
  - intros H j h Hlt Hj. apply (H j). by apply slots_lookup.
  - intros H j h [? ?]%slots_lookup. by eapply H.
Qed.

Lemma quiet_not_protected s p : quiet s -> ~ protected p s.
Proof.
  rewrite quiet_lookup, protected_lookup. intros H (j & h & Hlt & Hj & Hp).
  rewrite (H j h Hlt Hj) in Hp. done.
Qed.

Lemma table_exhausted_lookup s :
  table_exhausted s <->
  forall j h, j < max_hazard_pointers ->
    hazard_pointers s !! j = Some h -> is_Some (hp_id h).
Proof.
  unfold table_exhausted. rewrite Forall_lookup. split.
  - intros H j h Hlt Hj. apply (H j). by apply slots_lookup.
  - intros H j h [? ?]%slots_lookup. by eapply H.
Qed.

Lemma has_free_slot_lookup s :
  has_free_slot s <->
  exists j q, j < max_hazard_pointers /\
    hazard_pointers s !! j = Some (HazardPointer None q).
Proof.
  unfold has_free_slot. rewrite Exists_exists. split.
  - intros ([o q] & (j & Hj)%list_elem_of_lookup & Hp). cbn in Hp. subst o.
    apply slots_lookup in Hj as [? ?]. eauto.
  - intros (j & q & Hlt & Hj). exists (HazardPointer None q). split; [|done].
    apply list_elem_of_lookup. exists j. by apply slots_lookup.
Qed.

(** The loop of [hp_owner] passes over owned slots only. *)
Lemma hp_owner_loop_min (tbl : list hazard_pointer) n i k :
  hp_owner_loop n i tbl = Some k ->
  forall j h, i <= j < k -> tbl !! j = Some h -> is_Some (hp_id h).
Proof.
  revert i. induction n as [|n IH]; intros i; cbn [hp_owner_loop]; [done|].
  destruct (tbl !! i) as [[[o|] q]|] eqn:E.
  - intros Hk j h Hj Hh. destruct (decide (j = i)) as [->|].
    + rewrite E in Hh. injection Hh as <-. by eexists.
    + apply (IH (S i) Hk j h); [lia | done].
  - intros [= <-] j h Hj. lia.
  - intros Hk j h Hj Hh. destruct (decide (j = i)) as [->|].
    + congruence.
    + apply (IH (S i) Hk j h); [lia | done].
Qed.

(** What the first acquisition of a thread does, field by field. *)
Lemma get_hazard_first t s i s' :
  hazard s !! t = None ->
  get_hazard_pointer_for_current_thread t s = Ret i s' ->
  i < max_hazard_pointers /\
  (exists q, hazard_pointers s !! i = Some (HazardPointer None q)) /\
  (forall j h, j < i -> hazard_pointers s !! j = Some h -> is_Some (hp_id h)) /\
  hazard_pointers s' = alter (claim t) i (hazard_pointers s) /\
  hazard s' = <[t := i]> (hazard s) /\
  stack_head s' = stack_head s /\
  nodes_to_reclaim s' = nodes_to_reclaim s /\
  heap s' = heap s.
Proof.
  intros Ht. unfold get_hazard_pointer_for_current_thread, hp_owner. rewrite Ht.
  destruct (hp_owner_loop _ _ _) as [k|] eqn:E; [|done].
  intros [= <- <-].
  destruct (hp_owner_loop_Some _ _ _ _ E) as (q & Hq & Hk).
  split; [lia|]. split; [eauto|]. split; [|done].
  intros j h Hj. apply (hp_owner_loop_min _ _ _ _ E). lia.
Qed.

Lemma get_hazard_again t s i :
  hazard s !! t = Some i ->
  get_hazard_pointer_for_current_thread t s = Ret i s.
Proof. unfold get_hazard_pointer_for_current_thread. by intros ->. Qed.

(** What a returning [pop] leaves in the table: the slot of the thread,
    acquired if need be, written twice. *)
Lemma pop_table t s r s' :
  pop t s = Ret r s' ->
  exists i s0,
    get_hazard_pointer_for_current_thread t s = Ret i s0 /\
    hazard s' = hazard s0 /\
    hazard_pointers s'
    = alter (fun h => HazardPointer (hp_id h) None) i
        (alter (fun h => HazardPointer (hp_id h) (stack_head s0)) i
           (hazard_pointers s0)).
Proof.
  unfold pop.
  destruct (get_hazard_pointer_for_current_thread t s) as [i s0| | |] eqn:Hget;
    try done.
  intros Hpop. exists i, s0. split; [done|].
  destruct (stack_head s0) as [p|] eqn:Hhd.
  - change (heap (hp_store i (Some p) s0)) with (heap s0) in Hpop.
    destruct (heap s0 !! p) as [nd|]; [|done]. injection Hpop as <- <-.
    destruct (sweep_table
      (if outstanding_hazard_pointers_for p
            (set_heap (<[p:=Node None (node_next nd)]> (heap s0))
               (hp_store i None (set_stack_head (node_next nd)
                  (hp_store i (Some p) s0))))
       then reclaim_later p
            (set_heap (<[p:=Node None (node_next nd)]> (heap s0))
               (hp_store i None (set_stack_head (node_next nd)
                  (hp_store i (Some p) s0))))
       else do_delete p
            (set_heap (<[p:=Node None (node_next nd)]> (heap s0))
               (hp_store i None (set_stack_head (node_next nd)
                  (hp_store i (Some p) s0)))))) as (-> & -> & _).
    by destruct (outstanding_hazard_pointers_for _ _).
  - by injection Hpop as <- <-.
Qed.
End table_lookup.

(** ** Ownership of slots *)

Section slot_ownership.
Context {A : Type}.
Implicit Types (s : state A) (t : thread_id) (p : addr).

(** [owns_consistent] reads the thread-local handles and the owner ids. *)
Lemma owns_consistent_ids s s' :
  hazard s' = hazard s ->
  (forall j, hp_id <$> hazard_pointers s' !! j = hp_id <$> hazard_pointers s !! j) ->
  owns_consistent s -> owns_consistent s'.
Proof.
  intros Hh Hids Hc t i Hti. rewrite Hh in Hti.
  destruct (Hc t i Hti) as (Hlt & h & Hi & Hid). split; [done|].
  specialize (Hids i). rewrite Hi in Hids. cbn in Hids.
  destruct (hazard_pointers s' !! i) as [h'|]; [|done].
  exists h'. split; [done|]. cbn in Hids. congruence.
Qed.

Lemma alter_pointer_ids (tbl : list hazard_pointer) (f : hazard_pointer -> option addr) i j :
  hp_id <$> alter (fun h => HazardPointer (hp_id h) (f h)) i tbl !! j
  = hp_id <$> tbl !! j.
Proof.
  destruct (decide (i = j)) as [->|].
  - rewrite list_lookup_alter_eq. by destruct (tbl !! j).
  - by rewrite list_lookup_alter_ne.
Qed.

Lemma acquire_consistent t s i s' :
  get_hazard_pointer_for_current_thread t s = Ret i s' ->
  owns_consistent s -> owns_consistent s'.
Proof.
  intros Hget Hc. destruct (hazard s !! t) as [i0|] eqn:Ht.
  - rewrite (get_hazard_again t s i0 Ht) in Hget. by injection Hget as <- <-.
  - destruct (get_hazard_first t s i s' Ht Hget)
      as (Hlt & (q & Hq) & _ & Htbl & Hmap & _).
    intros t' i'. rewrite Hmap, Htbl. destruct (decide (t' = t)) as [->|Hne].
    + rewrite lookup_insert_eq. intros [= <-]. split; [done|].
      rewrite list_lookup_alter_eq, Hq. by eexists.
    + rewrite lookup_insert_ne by done. intros Hti'.
      destruct (Hc t' i' Hti') as (Hlt' & h & Hi' & Hid). split; [done|].
      assert (i <> i') by (intros <-; rewrite Hq in Hi'; by injection Hi' as <-).
      rewrite list_lookup_alter_ne by done. eauto.
Qed.

Lemma pop_consistent t s r s' :
  pop t s = Ret r s' -> owns_consistent s -> owns_consistent s'.
Proof.
  intros Hpop Hc. destruct (pop_table t s r s' Hpop) as (i & s0 & Hget & Hh & Htbl).
  apply (owns_consistent_ids s0); [done | |by eapply acquire_consistent].
  intros j. rewrite Htbl.
  rewrite (alter_pointer_ids _ (fun _ => None)).
  by rewrite (alter_pointer_ids _ (fun _ => stack_head s0)).
Qed.

Lemma owns_consistent_injective s t1 t2 j :
  owns_consistent s ->
  hazard s !! t1 = Some j -> hazard s !! t2 = Some j -> t1 = t2.
Proof.
  intros Hc H1 H2.
  destruct (Hc t1 j H1) as (_ & h1 & Hj1 & Hid1).
  destruct (Hc t2 j H2) as (_ & h2 & Hj2 & Hid2). congruence.
Qed.

(** Where [pop] writes in the table. *)
Lemma pop_slots t s r s' :
  pop t s = Ret r s' ->
  exists i,
    hazard s' !! t = Some i /\
    (forall h, hazard_pointers s' !! i = Some h -> hp_pointer h = None) /\
    (forall j, j <> i -> hazard_pointers s' !! j = hazard_pointers s !! j) /\
    (forall j, hp_id <$> hazard_pointers s' !! j
               = if decide (j = i /\ hazard s !! t = None)
                 then (fun _ => Some t) <$> hazard_pointers s !! j
                 else hp_id <$> hazard_pointers s !! j) /\
    (forall t', t' <> t -> hazard s' !! t' = hazard s !! t').
Proof.
  intros Hpop. destruct (pop_table t s r s' Hpop) as (i & s0 & Hget & Hh & Htbl).
  exists i. rewrite Hh, Htbl.
  assert (hazard s0 !! t = Some i /\
          (forall t', t' <> t -> hazard s0 !! t' = hazard s !! t') /\
          (forall j, j <> i -> hazard_pointers s0 !! j = hazard_pointers s !! j) /\
          (forall j, hp_id <$> hazard_pointers s0 !! j
               = if decide (j = i /\ hazard s !! t = None)
                 then (fun _ => Some t) <$> hazard_pointers s !! j
                 else hp_id <$> hazard_pointers s !! j))
    as (Hti & Hothers & Htbl0 & Hids0).
  { destruct (hazard s !! t) as [i0|] eqn:Ht.
    - rewrite (get_hazard_again t s i0 Ht) in Hget. injection Hget as <- <-.
      repeat split; try done. intros j. rewrite decide_False; [done|].
      by intros [_ ?].
    - destruct (get_hazard_first t s i s0 Ht Hget)
        as (_ & _ & _ & Htbl0 & Hmap & _).
      rewrite Hmap, Htbl0. split; [by rewrite lookup_insert_eq|].
      split; [intros t' ?; by rewrite lookup_insert_ne|].
      split; [intros j ?; by rewrite list_lookup_alter_ne|].
      intros j. destruct (decide (j = i)) as [->|Hne].
      + rewrite decide_True by done. rewrite list_lookup_alter_eq.
        by destruct (hazard_pointers s !! i).
      + rewrite decide_False by (by intros [? _]).
        by rewrite list_lookup_alter_ne. }
  split; [done|]. split; [|split; [|split; [|done]]].
  - intros h. rewrite list_lookup_alter_eq.
    destruct (alter _ i (hazard_pointers s0) !! i); [|done]. by intros [= <-].
  - intros j Hne. rewrite !list_lookup_alter_ne by done. by apply Htbl0.
  - intros j. rewrite (alter_pointer_ids _ (fun _ => None)).
    rewrite (alter_pointer_ids _ (fun _ => stack_head s0)). apply Hids0.
Qed.

(** The destructor, field by field. *)
Lemma hp_owner_destroy_fields t s i :
  hazard s !! t = Some i ->
  hazard (hp_owner_destroy t s) = delete t (hazard s) /\
  hazard_pointers (hp_owner_destroy t s)
  = alter (fun _ => HazardPointer None None) i (hazard_pointers s) /\
  stack_head (hp_owner_destroy t s) = stack_head s /\
  nodes_to_reclaim (hp_owner_destroy t s) = nodes_to_reclaim s /\
  heap (hp_owner_destroy t s) = heap s.
Proof.
  intros Hti. unfold hp_owner_destroy. rewrite Hti. cbn.
  split; [done|]. split; [|done]. by rewrite list_alter_alter_eq.
Qed.
End slot_ownership.

(** ** Reclamation while no address is published *)

Section quiet_table.
Context {A : Type}.
Implicit Types (s : state A) (t : thread_id) (p a : addr).

Lemma chain_head (h : gmap addr (node A)) hd (al : list (addr * A)) :
  chain h hd al -> hd = fst <$> head al.
Proof. by destruct 1. Qed.

Lemma pop_keeps_quiet t s r s' : pop t s = Ret r s' -> quiet s -> quiet s'.
Proof.
  intros Hpop Hq. destruct (pop_slots t s r s' Hpop) as (i & _ & Hi & Hothers & _).
  apply quiet_lookup. intros j h Hlt Hj. destruct (decide (j = i)) as [->|Hne].
  - by apply Hi.
  - rewrite Hothers in Hj by done. by eapply (proj1 (quiet_lookup s) Hq).
Qed.

(** With no address published, [pop] frees the node it unlinks and every
    node on the reclamation list. *)
Lemma pop_quiet t s r s' a :
  pop t s = Ret r s' -> quiet s -> stack_head s = Some a ->
  nodes_to_reclaim s' = [] /\
  forall b, heap s' !! b
            = if decide (b = a \/ b ∈ nodes_to_reclaim s) then None
              else heap s !! b.
Proof.
  intros Hpop Hq Hhd. pose proof (pop_keeps_quiet t s r s' Hpop Hq) as Hq'.
  unfold pop in Hpop.
  destruct (get_hazard_pointer_for_current_thread t s) as [i s0| | |] eqn:Hget;
    try done.
  destruct (get_hazard_acquire t s (get_hazard_Ret _ _ _ _ Hget))
    as (i' & s0' & Hget' & _ & Hh & Hr & Hp).
  rewrite Hget in Hget'. injection Hget' as <- <-.
  rewrite Hh, Hhd in Hpop.
  change (heap (hp_store i (Some a) s0)) with (heap s0) in Hpop.
  destruct (heap s0 !! a) as [nd|] eqn:Hnd; [|done].
  injection Hpop as <- <-.
  set (s4 := set_heap _ _) in *.
  assert (forall b s5, hazard_pointers s5 = hazard_pointers s4 ->
            ~ protected b s5) as Hnone.
  { intros b s5 Htbl Hb. apply (quiet_not_protected _ b Hq').
    eapply protected_frame; [|exact Hb].
    destruct (sweep_table (if outstanding_hazard_pointers_for a s4
      then reclaim_later a s4 else do_delete a s4)) as (-> & _).
    rewrite Htbl. by destruct (outstanding_hazard_pointers_for a s4). }
  destruct (outstanding_hazard_pointers_for a s4) eqn:Hout.
  { apply outstanding_protected in Hout. by apply (Hnone a s4) in Hout. }
  split.
  - destruct (nodes_to_reclaim (delete_nodes_with_no_hazards (do_delete a s4)))
      as [|b l] eqn:E; [done|].
    assert (b ∈ nodes_to_reclaim (delete_nodes_with_no_hazards (do_delete a s4)))
      as [_ Hb]%sweep_list by (rewrite E; by left).
    by apply (Hnone b (do_delete a s4)) in Hb.
  - intros b. rewrite sweep_heap. cbn. rewrite Hr, Hp.
    destruct (decide (b ∈ nodes_to_reclaim s)) as [Hin|Hnin].
    + rewrite decide_True by (split; [done | by apply Hnone]).
      rewrite decide_True; [done | by right].
    + rewrite decide_False by (by intros [? _]).
      destruct (decide (b = a)) as [->|Hne].
      * rewrite lookup_delete_eq, decide_True; [done | by left].
      * rewrite lookup_delete_ne, lookup_insert_ne by done.
        rewrite decide_False; [done|]. by intros [?|?].
Qed.
End quiet_table.

(** ** More on std::partition and on the value of the sort *)

Section partition_fixed.
Context {T : Type}.
Implicit Types (l lo hi : list T).

Lemma scan_back_all_false (pred : T -> bool) l :
  Forall (fun v => pred v = false) l -> scan_back pred l = None.
Proof.
  induction 1 as [|x l Hx _ IH]; [done|]. cbn. by rewrite IH, Hx.
Qed.

(** A range that is partitioned already is left as it is. *)
Lemma std_partition_partitioned (pred : T -> bool) lo hi :
  Forall (fun v => pred v = true) lo ->
  Forall (fun v => pred v = false) hi ->
  std_partition pred (lo ++ hi) = (lo, hi).
Proof.
  intros Hlo Hhi. unfold std_partition.
  induction Hlo as [|x lo Hx _ IH]; cbn.
  - destruct Hhi as [|y hi Hy Hhi]; [done|]. cbn.
    by rewrite Hy, (scan_back_all_false pred hi Hhi).
  - by rewrite Hx, IH.
Qed.

(** A list in which no element is less than one before it is its own
    sorted form: every partition step finds the lower group empty and
    leaves the higher group in place. *)
Lemma sorts_to_sorted_input (lt : T -> T -> bool) l :
  StronglySorted (fun a b => lt b a = false) l -> sorts_to lt l l.
Proof.
  induction 1 as [|x l Hs IH Hall]; [constructor|].
  pose proof (std_partition_partitioned (fun val => lt val x) [] l
    (List.Forall_nil _) Hall) as E. cbn [app] in E.
  apply (sorts_cons lt x l [] l); rewrite E; [constructor | done].
Qed.
End partition_fixed.

(** ** What a call of do_sort leaves behind *)

Section sorter_effects.
Context {T : Type} (lt : T -> T -> bool).
Implicit Types (l out lo hi lower higher : list T) (w : sorter T)
  (t : thread_id) (al : list (addr * chunk_to_sort T)).

Lemma grow_pool_threads w :
  Z.of_nat (threads (grow_pool w))
  = Z.max (Z.of_nat (threads w))
      (Z.min (max_thread_count w) (Z.of_nat (threads w) + 1)).
Proof. unfold grow_pool. case_decide; cbn; lia. Qed.

(** The vector of threads grows by one at each partition step until the cap
    is reached, and with no address published every node pushed is freed
    when it is popped: the free store and the reclamation list end as they
    began. *)
Lemma do_sort_effects t l out :
  sorts_to lt l out ->
  forall fuel w al,
    enough (length l) <= fuel ->
    stack_inv (chunks w) al -> can_acquire t (chunks w) ->
    exists w',
      do_sort lt fuel t l w = Ret out w' /\
      stack_inv (chunks w') al /\
      can_acquire t (chunks w') /\
      max_thread_count w' = max_thread_count w /\
      Z.of_nat (threads w')
      = Z.max (Z.of_nat (threads w))
          (Z.min (max_thread_count w)
             (Z.of_nat (threads w) + Z.of_nat (length l))) /\
      (quiet (chunks w) -> nodes_to_reclaim (chunks w) = [] ->
       quiet (chunks w') /\ nodes_to_reclaim (chunks w') = [] /\
       heap (chunks w') = heap (chunks w)).
Proof.
  unfold enough.
  induction 1 as [|p rest lo hi Hlo IHlo Hhi IHhi]; intros fuel w al Hfuel Hinv Hacq.
  - destruct fuel as [|fuel]; [cbn in Hfuel; lia|]. exists w.
    split; [done|]. split; [done|]. split; [done|]. split; [done|].
    split; [|done]. cbn [length]. lia.
  - pose proof (std_partition_length (fun val => lt val p) rest) as Hlen.
    cbn [length] in Hfuel.
    destruct fuel as [|fuel]; [lia|]. rewrite do_sort_S. cbv zeta.
    set (lower := (std_partition (fun val => lt val p) rest).1) in *.
    set (higher := (std_partition (fun val => lt val p) rest).2) in *.
    destruct (offload_promises lower w) as [Hprom Hfresh].
    pose proof (offload_chunks lower w) as Hch.
    set (fut := (offload lower w).1) in *.
    destruct (grow_pool_frame (offload lower w).2) as (Hgc & Hgp & Hgm).
    pose proof (grow_pool_threads (offload lower w).2) as Hgt.
    change (threads (offload lower w).2) with (threads w) in Hgt.
    change (max_thread_count (offload lower w).2) with (max_thread_count w) in Hgt, Hgm.
    set (w1 := grow_pool (offload lower w).2) in *.
    set (c := Chunk lower fut) in *.
    assert (heap (chunks w) !! new_node (chunks w) = None) as Hnew
      by apply not_elem_of_dom, is_fresh.
    destruct (IHhi fuel w1 ((new_node (chunks w), c) :: al))
      as (w2 & Hrun2 & Hinv2 & Hacq2 & Hmax2 & Hthr2 & Hclean2).
    { lia. }
    { rewrite Hgc, Hch. by apply push_inv. }
    { rewrite Hgc, Hch. by eapply can_acquire_frame; [| |exact Hacq]. }
    destruct (do_sort_spec lt t _ _ Hhi fuel w1 ((new_node (chunks w), c) :: al))
      as (w2' & Hrun2' & _ & _ & Hsub2 & _).
    { unfold enough. lia. }
    { rewrite Hgc, Hch. by apply push_inv. }
    { rewrite Hgc, Hch. by eapply can_acquire_frame; [| |exact Hacq]. }
    rewrite Hrun2 in Hrun2'. injection Hrun2' as <-.
    unfold bind at 1. rewrite Hrun2.
    assert (promises w2 !! fut = Some None) as Hpend.
    { eapply lookup_weaken; [|exact Hsub2]. rewrite Hgp, Hprom. apply lookup_insert_eq. }
    destruct fuel as [|fuel]; [lia|]. unfold bind at 1. rewrite help_until_ready_S.
    unfold is_ready at 1. rewrite Hpend.
    destruct fuel as [|fuel]; [lia|]. unfold bind at 1. rewrite try_sort_chunk_S.
    destruct (pop_inv t _ _ _ _ Hinv2 Hacq2) as (c3 & Hpop & Hinv3 & Hsome3).
    unfold bind at 1, on_chunks. rewrite Hpop.
    destruct fuel as [|fuel]; [lia|]. rewrite sort_chunk_S. cbn [data promise c].
    destruct (IHlo fuel (set_chunks c3 w2) al)
      as (w4 & Hrun4 & Hinv4 & Hacq4 & Hmax4 & Hthr4 & Hclean4).
    { lia. }
    { done. }
    { by left. }
    destruct (do_sort_spec lt t _ _ Hlo fuel (set_chunks c3 w2) al)
      as (w4' & Hrun4' & _ & _ & Hsub4 & _).
    { unfold enough. lia. }
    { done. }
    { by left. }
    rewrite Hrun4 in Hrun4'. injection Hrun4' as <-.
    unfold bind at 1. rewrite Hrun4.
    assert (promises w4 !! fut = Some None) as Hpend4.
    { eapply lookup_weaken; [|exact Hsub4]. done. }
    unfold set_value. rewrite Hpend4.
    rewrite help_until_ready_S. unfold is_ready. cbn [promises set_promises].
    rewrite lookup_insert_eq. unfold bind, future_get. cbn [promises set_promises].
    rewrite lookup_insert_eq. eexists. split; [reflexivity|].
    split; [done|]. split; [done|]. split; [|split].
    + cbn in *. congruence.
    + cbn [threads set_promises set_chunks max_thread_count length] in *.
      rewrite Hmax2, Hgm in Hthr4. rewrite Hgm in Hthr2. lia.
    + intros Hq Hempty.
      destruct Hclean2 as (Hq2 & Hr2 & Hh2).
      { rewrite Hgc, Hch. done. }
      { rewrite Hgc, Hch. done. }
      assert (stack_head (chunks w2) = Some (new_node (chunks w))) as Hhd2.
      { destruct Hinv2 as [Hc _ _ _]. by apply chain_head in Hc. }
      destruct (pop_quiet t _ _ _ _ Hpop Hq2 Hhd2) as (Hr3 & Hh3).
      destruct Hclean4 as (Hq4 & Hr4 & Hh4).
      { by eapply pop_keeps_quiet. }
      { done. }
      split; [done|]. split; [done|]. cbn [chunks set_promises set_chunks] in *.
      rewrite Hh4. apply map_eq. intros b. rewrite Hh3, Hr2, Hh2, Hgc, Hch. cbn.
      destruct (decide (b = new_node (chunks w))) as [->|Hne].
      * rewrite decide_True; [done | by left].
      * rewrite decide_False by (intros [?|?%elem_of_nil]; done).
        by rewrite lookup_insert_ne.
Qed.

End sorter_effects.

(** ** Properties of the hazard-pointer registry *)

(** X1. The first acquisition of a thread claims the free slot of lowest
    index among the first [max_hazard_pointers]: every slot before it has an
    owner, the slot gets the id of the thread and keeps its pointer field,
    and no other slot changes. *)
Theorem acquire_claims_first_free_slot {A} t (s : state A) i s' :
  hazard s !! t = None ->
  get_hazard_pointer_for_current_thread t s = Ret i s' ->
  i < max_hazard_pointers /\
  (exists q, hazard_pointers s !! i = Some (HazardPointer None q) /\
             hazard_pointers s' !! i = Some (HazardPointer (Some t) q)) /\
  (forall j h, j < i -> hazard_pointers s !! j = Some h -> is_Some (hp_id h)) /\
  (forall j, j <> i -> hazard_pointers s' !! j = hazard_pointers s !! j) /\
  hazard s' !! t = Some i.
Proof.
  intros Ht Hget.
  destruct (get_hazard_first t s i s' Ht Hget)
    as (Hlt & (q & Hq) & Hmin & Htbl & Hmap & _).
  split; [done|]. rewrite Htbl, Hmap. split; [|split; [done|split]].
  - exists q. split; [done|]. by rewrite list_lookup_alter_eq, Hq.
  - intros j Hne. by rewrite list_lookup_alter_ne.
  - by rewrite lookup_insert_eq.
Qed.

Lemma acquire_claims_first_free_slot_witness :
  2 < max_hazard_pointers /\
  (exists q, hazard_pointers partly_owned_state !! 2 = Some (HazardPointer None q) /\
             hazard_pointers partly_owned_after !! 2
             = Some (HazardPointer (Some 5) q)) /\
  (forall j h, j < 2 -> hazard_pointers partly_owned_state !! j = Some h ->
     is_Some (hp_id h)) /\
  (forall j, j <> 2 ->
     hazard_pointers partly_owned_after !! j = hazard_pointers partly_owned_state !! j) /\
  hazard partly_owned_after !! 5 = Some 2.
Proof.
  apply (acquire_claims_first_free_slot 5 partly_owned_state 2 partly_owned_after).
  - reflexivity.
  - vm_compute. reflexivity.
Defined.

(** X2. [pop] keeps the ownership of slots: if every thread-local handle
    names a slot that carries the id of its thread, this still holds after a
    [pop], two threads never hold the same slot, and the slot of any other
    thread is left exactly as it was. *)
Theorem pop_keeps_slot_ownership {A} t (s : state A) r s' :
  owns_consistent s -> pop t s = Ret r s' ->
  owns_consistent s' /\
  (forall t1 t2 j,
     hazard s' !! t1 = Some j -> hazard s' !! t2 = Some j -> t1 = t2) /\
  (forall t' j, t' <> t -> hazard s !! t' = Some j ->
     hazard s' !! t' = Some j /\
     hazard_pointers s' !! j = hazard_pointers s !! j).
Proof.
  intros Hc Hpop. pose proof (pop_consistent t s r s' Hpop Hc) as Hc'.
  split; [done|]. split.
  - intros t1 t2 j. by apply owns_consistent_injective.
  - intros t' j Hne Hj.
    destruct (pop_slots t s r s' Hpop) as (i & Hti & _ & Hothers & _ & Hmap).
    assert (hazard s' !! t' = Some j) as Hj' by (by rewrite Hmap).
    split; [done|]. apply Hothers. intros ->.
    apply Hne. by apply (owns_consistent_injective s' t' t i).
Qed.

Lemma partly_owned_consistent : owns_consistent partly_owned_state.
Proof.
  intros t i Hti. change (hazard partly_owned_state) with
    (<[11 := 0]> (<[12 := 1]> (∅ : gmap nat nat))) in Hti.
  destruct (decide (t = 11)) as [->|].
  - rewrite lookup_insert_eq in Hti. injection Hti as <-.
    split; [by_computation|]. by eexists.
  - rewrite lookup_insert_ne in Hti by done.
    destruct (decide (t = 12)) as [->|].
    + rewrite lookup_insert_eq in Hti. injection Hti as <-.
      split; [by_computation|]. by eexists.
    + rewrite lookup_insert_ne, lookup_empty in Hti by done. done.
Qed.

Lemma pop_keeps_slot_ownership_witness :
  owns_consistent partly_owned_popped /\
  (hazard partly_owned_popped !! 5 = Some 2 ->
   hazard partly_owned_popped !! 11 = Some 2 -> 5 = 11) /\
  (hazard partly_owned_popped !! 11 = Some 0 /\
   hazard_pointers partly_owned_popped !! 0
   = Some (HazardPointer (Some 11) None)) /\
  (hazard partly_owned_popped !! 12 = Some 1 /\
   hazard_pointers partly_owned_popped !! 1
   = Some (HazardPointer (Some 12) None)).
Proof.
  destruct (pop_keeps_slot_ownership 5 partly_owned_state None partly_owned_popped)
    as (Hc & Hinj & Hothers).
  - exact partly_owned_consistent.
  - vm_compute. reflexivity.
  - split; [exact Hc|]. split; [apply Hinj|]. split.
    + apply (Hothers 11 0); [discriminate | reflexivity].
    + apply (Hothers 12 1); [discriminate | reflexivity].
Defined.

(** X3. A returning [pop] leaves the slot of the calling thread holding no
    address, and writes no other slot of the table. *)
Theorem pop_clears_own_slot {A} t (s : state A) r s' :
  pop t s = Ret r s' ->
  exists i,
    hazard s' !! t = Some i /\
    (forall h, hazard_pointers s' !! i = Some h -> hp_pointer h = None) /\
    (forall j, j <> i -> hazard_pointers s' !! j = hazard_pointers s !! j).
Proof.
  intros Hpop. destruct (pop_slots t s r s' Hpop) as (i & ? & ? & ? & _).
  by exists i.
Qed.

Lemma pop_clears_own_slot_witness :
  exists i,
    hazard contended_after !! 1 = Some i /\
    (forall h, hazard_pointers contended_after !! i = Some h ->
       hp_pointer h = None) /\
    (forall j, j <> i ->
       hazard_pointers contended_after !! j = hazard_pointers contended_state !! j).
Proof.
  apply (pop_clears_own_slot 1 contended_state (Some 7) contended_after).
  vm_compute. reflexivity.
Defined.

(** X4. When a thread exits, [~hp_owner] gives its slot back: the thread has
    no handle any more, the slot has neither owner nor address, no other
    slot changes, ownership stays consistent, and every thread can acquire a
    slot again, so that a [pop] on an empty stack returns for any thread. *)
Theorem thread_exit_frees_slot {A} t (s : state A) i :
  owns_consistent s -> hazard s !! t = Some i ->
  hazard (hp_owner_destroy t s) !! t = None /\
  hazard_pointers (hp_owner_destroy t s) !! i = Some (HazardPointer None None) /\
  (forall j, j <> i ->
     hazard_pointers (hp_owner_destroy t s) !! j = hazard_pointers s !! j) /\
  owns_consistent (hp_owner_destroy t s) /\
  (forall t', can_acquire t' (hp_owner_destroy t s)) /\
  (forall t', stack_head s = None ->
     exists s', pop t' (hp_owner_destroy t s) = Ret None s').
Proof.
  intros Hc Hti.
  destruct (hp_owner_destroy_fields t s i Hti) as (Hmap & Htbl & Hhd & _).
  destruct (Hc t i Hti) as (Hlt & h & Hi & Hid).
  assert (hazard_pointers (hp_owner_destroy t s) !! i
          = Some (HazardPointer None None)) as Hslot
    by (by rewrite Htbl, list_lookup_alter_eq, Hi).
  assert (forall t', can_acquire t' (hp_owner_destroy t s)) as Hacq.
  { intros t'. right. apply has_free_slot_lookup. eauto. }
  split; [by rewrite Hmap, lookup_delete_eq|]. split; [done|].
  split; [intros j Hne; by rewrite Htbl, list_lookup_alter_ne|].
  split; [|split; [done|]].
  - intros t' i'. rewrite Hmap. destruct (decide (t' = t)) as [->|Hne].
    + by rewrite lookup_delete_eq.
    + rewrite lookup_delete_ne by done. intros Hti'.
      destruct (Hc t' i' Hti') as (Hlt' & h' & Hi' & Hid'). split; [done|].
      assert (i <> i').
      { intros <-. apply Hne. by apply (owns_consistent_injective s t' t i). }
      rewrite Htbl, list_lookup_alter_ne by done. eauto.
  - intros t' Hnone. destruct (pop_empty t' (hp_owner_destroy t s)) as (s' & ? & _).
    + by rewrite Hhd.
    + apply Hacq.
    + eauto.
Qed.

Lemma thread_exit_frees_slot_witness :
  hazard (hp_owner_destroy 11 partly_owned_state) !! 11 = None /\
  hazard_pointers (hp_owner_destroy 11 partly_owned_state) !! 0
  = Some (HazardPointer None None).
Proof.
  destruct (thread_exit_frees_slot 11 partly_owned_state 0) as (H1 & H2 & _).
  - intros t i Hti. change (hazard partly_owned_state) with
      (<[11 := 0]> (<[12 := 1]> (∅ : gmap nat nat))) in Hti.
    destruct (decide (t = 11)) as [->|].
    + rewrite lookup_insert_eq in Hti. injection Hti as <-.
      split; [by_computation|]. by eexists.
    + rewrite lookup_insert_ne in Hti by done.
      destruct (decide (t = 12)) as [->|].
      * rewrite lookup_insert_eq in Hti. injection Hti as <-.
        split; [by_computation|]. by eexists.
      * rewrite lookup_insert_ne, lookup_empty in Hti by done. done.
  - reflexivity.
  - by split.
Defined.

Lemma state_eq {A} (s1 s2 : state A) :
  stack_head s1 = stack_head s2 ->
  hazard_pointers s1 = hazard_pointers s2 ->
  hazard s1 = hazard s2 ->
  nodes_to_reclaim s1 = nodes_to_reclaim s2 ->
  heap s1 = heap s2 ->
  s1 = s2.
Proof. destruct s1, s2. cbn. by intros -> -> -> -> ->. Qed.

(** X5. Acquire and release are inverse: a thread without a slot that pops
    the empty stack and then exits leaves the shared state exactly as it
    found it, provided the free slots hold no address. *)
Theorem pop_then_exit_restores {A} t (s : state A) r s' :
  hazard s !! t = None -> free_slots_clear s -> stack_head s = None ->
  pop t s = Ret r s' ->
  r = None /\ hp_owner_destroy t s' = s.
Proof.
  intros Ht Hclear Hnone Hpop.
  destruct (pop_table t s r s' Hpop) as (i & s0 & Hget & Hmap' & Htbl').
  destruct (pop_empty t s Hnone (get_hazard_Ret _ _ _ _ Hget))
    as (s'' & Hpop' & _ & Hhd & Hlist & Hheap).
  rewrite Hpop in Hpop'. injection Hpop' as -> <-. split; [done|].
  destruct (get_hazard_first t s i s0 Ht Hget)
    as (Hlt & (q & Hq) & _ & Htbl0 & Hmap0 & _).
  assert (q = None) as ->.
  { unfold free_slots_clear in Hclear. rewrite Forall_lookup in Hclear.
    apply (Hclear i (HazardPointer None q)); [by apply slots_lookup | done]. }
  assert (hazard s' !! t = Some i) as Hti
    by (by rewrite Hmap', Hmap0, lookup_insert_eq).
  destruct (hp_owner_destroy_fields t s' i Hti) as (Hm & Ht' & Hh & Hl & Hp).
  apply state_eq.
  - by rewrite Hh, Hhd.
  - rewrite Ht', Htbl', Htbl0. apply list_eq. intros j.
    destruct (decide (i = j)) as [<-|Hne].
    + rewrite !list_lookup_alter_eq, Hq. done.
    + by rewrite !list_lookup_alter_ne.
  - rewrite Hm, Hmap', Hmap0. by apply delete_insert_id.
  - by rewrite Hl.
  - by rewrite Hp.
Qed.

Lemma pop_then_exit_restores_witness :
  (None : option nat) = None /\ hp_owner_destroy 0 idle_after = initial_state nat.
Proof.
  apply (pop_then_exit_restores 0 (initial_state nat) None idle_after).
  - reflexivity.
  - by_computation.
  - reflexivity.
  - vm_compute. reflexivity.
Defined.

(** ** Properties of the stack and of reclamation *)

(** X6. Push then pop is the identity on a well-formed stack, whatever it
    holds: the value pushed is the value returned, and the stack has the
    same nodes and the same head as before. *)
Theorem push_pop_round_trip {A} t (s : state A) (x : A) al :
  stack_inv s al -> can_acquire t s ->
  exists s',
    pop t (push x s) = Ret (Some x) s' /\
    stack_inv s' al /\
    stack_head s' = stack_head s.
Proof.
  intros Hinv Hacq.
  destruct (pop_inv t (push x s) (new_node s) x al) as (s' & Hpop & Hinv' & _).
  { by apply push_inv. }
  { by eapply can_acquire_frame; [| |exact Hacq]. }
  exists s'. split; [done|]. split; [done|].
  destruct Hinv as [Hc _ _ _]. destruct Hinv' as [Hc' _ _ _].
  apply chain_head in Hc, Hc'. congruence.
Qed.

Lemma push_pop_round_trip_witness :
  exists s',
    pop 0 (push 5 (push 7 (initial_state nat))) = Ret (Some 5) s' /\
    stack_inv s' [(0, 7)] /\
    stack_head s' = stack_head (push 7 (initial_state nat)).
Proof.
  apply (push_pop_round_trip 0 (push 7 (initial_state nat)) 5 [(0, 7)]).
  - apply (push_inv (initial_state nat) [] 7).
    apply stack_inv_empty; [reflexivity | split; constructor].
  - right. by_computation.
Defined.

(** X7. While no hazard slot holds an address, a [pop] reclaims at once: it
    frees the node it unlinks and every node on the reclamation list, leaves
    that list empty, touches no other node, and no slot holds an address
    afterwards. *)
Theorem pop_reclaims_when_quiet {A} t (s : state A) r s' a :
  quiet s -> stack_head s = Some a -> pop t s = Ret r s' ->
  quiet s' /\
  nodes_to_reclaim s' = [] /\
  forall b, heap s' !! b
            = if decide (b = a \/ b ∈ nodes_to_reclaim s) then None
              else heap s !! b.
Proof.
  intros Hq Hhd Hpop. split; [by eapply pop_keeps_quiet|].
  by eapply pop_quiet.
Qed.

Lemma pop_reclaims_when_quiet_witness :
  quiet deferred_after /\
  nodes_to_reclaim deferred_after = [] /\
  forall b, heap deferred_after !! b
            = if decide (b = 0 \/ b ∈ nodes_to_reclaim deferred_state) then None
              else heap deferred_state !! b.
Proof.
  apply (pop_reclaims_when_quiet 0 deferred_state (Some 7) deferred_after 0).
  - by_computation.
  - reflexivity.
  - vm_compute. reflexivity.
Defined.

(** X8. [delete_nodes_with_no_hazards] in closed form: the list it leaves
    holds exactly the entries some slot still holds, in reverse order; every
    other entry is freed; and a sound list (entries allocated, each listed
    once) stays sound. *)
Theorem sweep_keeps_exactly_the_protected {A} (s : state A) :
  nodes_to_reclaim (delete_nodes_with_no_hazards s)
  = reverse (filter (fun a => protected a s) (nodes_to_reclaim s)) /\
  (forall a, a ∈ nodes_to_reclaim s -> ~ protected a s ->
     heap (delete_nodes_with_no_hazards s) !! a = None) /\
  (reclaim_sound s -> reclaim_sound (delete_nodes_with_no_hazards s)).
Proof.
  assert (nodes_to_reclaim (delete_nodes_with_no_hazards s)
    = reverse (filter (fun a => protected a s) (nodes_to_reclaim s))) as Hlist.
  { unfold delete_nodes_with_no_hazards. rewrite reclaim_loop_list. cbn.
    rewrite app_nil_r. f_equal. apply list_filter_iff. intros a.
    rewrite (outstanding_frame a s (set_nodes_to_reclaim [] s)) by done.
    apply outstanding_protected. }
  split; [done|]. split.
  - intros a Hin Hn. by rewrite sweep_heap, decide_True.
  - intros [Hnd Hall]. split.
    + rewrite Hlist, reverse_Permutation. by apply NoDup_filter.
    + apply Forall_forall. intros a [Hin Hp]%sweep_list.
      rewrite sweep_heap, decide_False by (by intros [_ ?]).
      rewrite Forall_forall in Hall. by apply Hall.
Qed.

(** ** Properties of the partition and of the sort *)

(** X9. [std::partition] leaves a partitioned range as it is: on a group
    that satisfies the predicate followed by a group that does not, it
    returns the two groups, each in its order; so partitioning the result of
    a partition changes nothing. *)
Theorem partition_of_partitioned {T} (pred : T -> bool) :
  (forall lo hi,
     Forall (fun v => pred v = true) lo -> Forall (fun v => pred v = false) hi ->
     std_partition pred (lo ++ hi) = (lo, hi)) /\
  (forall l,
     std_partition pred ((std_partition pred l).1 ++ (std_partition pred l).2)
     = std_partition pred l).
Proof.
  split; [apply std_partition_partitioned|].
  intros l. destruct (std_partition pred l) as [lo hi] eqn:E.
  apply std_partition_spec in E as (_ & Hlo & Hhi).
  by apply std_partition_partitioned.
Qed.

(** X10. A list in which no element is less than an earlier one comes back
    from [parallel_quick_sort] unchanged, equal elements in their order
    too (no assumption on [lt] is needed). *)
Theorem sort_keeps_sorted_input {T} (lt : T -> T -> bool) hw t
    (input : list T) (g : state (chunk_to_sort T)) fuel :
  StronglySorted (fun a b => lt b a = false) input ->
  reclaim_sound g -> can_acquire t g ->
  enough (length input) <= fuel ->
  exists g', parallel_quick_sort lt fuel hw t input g = Ret input g'.
Proof.
  intros Hs Hr Hacq Hfuel.
  by apply parallel_quick_sort_spec; [apply sorts_to_sorted_input| | |].
Qed.

Lemma sort_keeps_sorted_input_witness :
  exists g',
    parallel_quick_sort Z.ltb 17 8 0 [1; 2; 2; 5]%Z (initial_state _)
    = Ret [1; 2; 2; 5]%Z g'.
Proof.
  apply (sort_keeps_sorted_input Z.ltb 8 0 [1; 2; 2; 5]%Z (initial_state _) 17).
  - repeat constructor.
  - split; constructor.
  - right. by_computation.
  - vm_compute. lia.
Defined.

(** X11. Sorting is idempotent: for an irreflexive and transitive [lt], the
    list [parallel_quick_sort] returns is returned unchanged when it is
    sorted again. *)
Theorem sort_idempotent {T} (lt : T -> T -> bool) hw t
    (input out : list T) (g g1 g2 : state (chunk_to_sort T)) fuel fuel2 :
  (forall a, lt a a = false) ->
  (forall a b c, lt a b = true -> lt b c = true -> lt a c = true) ->
  reclaim_sound g -> can_acquire t g ->
  reclaim_sound g2 -> can_acquire t g2 ->
  parallel_quick_sort lt fuel hw t input g = Ret out g1 ->
  enough (length out) <= fuel2 ->
  exists g3, parallel_quick_sort lt fuel2 hw t out g2 = Ret out g3.
Proof.
  intros Hirr Htrans Hr Hacq Hr2 Hacq2 Hrun Hfuel2.
  destruct (sorts_to_exists lt input) as [out' Hs].
  rewrite (parallel_quick_sort_unique lt t hw input out' g Hs Hr Hacq _ _ _ Hrun)
    in *.
  apply parallel_quick_sort_spec; try done.
  apply sorts_to_sorted_input. by eapply sorts_to_sorted.
Qed.

Lemma sort_idempotent_witness :
  exists g3,
    parallel_quick_sort Z.ltb 25 8 0 [1; 2; 3; 5; 8; 9]%Z (initial_state _)
    = Ret [1; 2; 3; 5; 8; 9]%Z g3.
Proof.
  apply (sort_idempotent Z.ltb 8 0 [5; 3; 8; 1; 9; 2]%Z [1; 2; 3; 5; 8; 9]%Z
    (initial_state _)
    (match parallel_quick_sort Z.ltb 25 8 0 [5; 3; 8; 1; 9; 2]%Z (initial_state _)
     with Ret _ g1 => g1 | _ => initial_state _ end)
    (initial_state _) 25 25).
  - intros a. apply Z.ltb_irrefl.
  - intros a b c Hab%Z.ltb_lt Hbc%Z.ltb_lt. apply Z.ltb_lt. lia.
  - split; constructor.
  - right. by_computation.
  - split; constructor.
  - right. by_computation.
  - vm_compute. reflexivity.
  - vm_compute. lia.
Defined.



(** X13. The size of the pool: run by one thread, [do_sort] on a list of
    [n] elements pushes one thread on [threads] at each of its [n] partition
    steps while the vector is below the cap, so that the vector ends with
    max (threads, min (cap, threads + n)) entries; the cap itself does not
    change. *)
Theorem do_sort_grows_pool_to_cap {T} (lt : T -> T -> bool) t
    (l : list T) (w : sorter T) al fuel :
  stack_inv (chunks w) al -> can_acquire t (chunks w) ->
  enough (length l) <= fuel ->
  exists out w',
    do_sort lt fuel t l w = Ret out w' /\
    max_thread_count w' = max_thread_count w /\
    Z.of_nat (threads w')
    = Z.max (Z.of_nat (threads w))
        (Z.min (max_thread_count w)
           (Z.of_nat (threads w) + Z.of_nat (length l))).
Proof.
  intros Hinv Hacq Hfuel. destruct (sorts_to_exists lt l) as [out Hs].
  destruct (do_sort_effects lt t _ _ Hs fuel w al Hfuel Hinv Hacq)
    as (w' & ? & _ & _ & ? & ? & _). by exists out, w'.
Qed.

Lemma do_sort_grows_pool_to_cap_witness :
  exists out w',
    do_sort Z.ltb 25 0 [5; 3; 8; 1; 9; 2]%Z (sorter_new 4 (initial_state _))
    = Ret out w' /\
    max_thread_count w' = 3%Z /\
    Z.of_nat (threads w') = 3%Z.
Proof.
  apply (do_sort_grows_pool_to_cap Z.ltb 0 [5; 3; 8; 1; 9; 2]%Z
    (sorter_new 4 (initial_state _)) [] 25).
  - apply stack_inv_empty; [reflexivity | split; constructor].
  - right. by_computation.
  - vm_compute. lia.
Defined.



(** X15. A sort that fails for want of a hazard slot leaves its chunks
    behind.  In a sort whose sorter creates no thread (the cap is zero, so
    that the calling thread alone runs), when the exception reaches the
    caller the stack of the destroyed sorter still has a node on top,
    allocated by this call and never freed (the stack has no destructor). *)
Theorem failed_sort_leaves_chunks {T} (lt : T -> T -> bool) hw t
    (input : list T) (g : state (chunk_to_sort T)) fuel :
  hazard g !! t = None -> table_exhausted g -> input <> [] ->
  max_thread_count (sorter_new hw g) = 0%Z ->
  enough (length input) <= fuel ->
  exists g' a,
    parallel_quick_sort lt fuel hw t input g
    = Throw runtime_error_no_hazard_pointers g' /\
    stack_head g' = Some a /\
    is_Some (heap g' !! a) /\
    heap g !! a = None.
Proof.
  intros Ht Hfull Hne Hcap Hfuel. unfold parallel_quick_sort.
  destruct input as [|p rest]; [done|].
  destruct (do_sort_exhausted lt t (p :: rest) fuel (sorter_new hw g))
    as (w' & a & -> & _ & _ & _ & ? & ? & ?); try done.
  { unfold enough in Hfuel. cbn [length] in *. lia. }
  { rewrite Hcap. cbn. lia. }
  by exists (chunks (sorter_destroy w')), a.
Qed.

Lemma failed_sort_leaves_chunks_witness :
  exists g' a,
    parallel_quick_sort Z.ltb 13 1 0 [4; 2; 6]%Z (exhausted_state _)
    = Throw runtime_error_no_hazard_pointers g' /\
    stack_head g' = Some a /\
    is_Some (heap g' !! a) /\
    heap (exhausted_state (chunk_to_sort Z)) !! a = None.
Proof.
  apply (failed_sort_leaves_chunks Z.ltb 1 0 [4; 2; 6]%Z (exhausted_state _) 13).
  - reflexivity.
  - by_computation.
  - discriminate.
  - reflexivity.
  - vm_compute. lia.
Defined.










(** Two lists without a descent that hold the same elements are equal,
    when two elements neither of which is less than the other are equal. *)
Lemma sorted_permutation_unique {T} (lt : T -> T -> bool) (l1 l2 : list T) :
  (forall a b, lt a b = false -> lt b a = false -> a = b) ->
  StronglySorted (fun a b => lt b a = false) l1 ->
  StronglySorted (fun a b => lt b a = false) l2 ->
  l1 ≡ₚ l2 -> l1 = l2.
Proof.
  intros Htot H1. revert l2. induction H1 as [|x l1 Hs1 IH Hall1]; intros l2 H2 Hp.
  - by apply Permutation_nil_l in Hp.
  - destruct H2 as [|y l2 Hs2 Hall2].
    + by apply Permutation_nil_r in Hp.
    + assert (x = y) as ->.
      { assert (x ∈ y :: l2) as Hx by (rewrite <- Hp; by left).
        assert (y ∈ x :: l1) as Hy by (rewrite Hp; by left).
        apply elem_of_cons in Hx as [->|Hx]; [done|].
        apply elem_of_cons in Hy as [->|Hy]; [done|].
        rewrite Forall_forall in Hall1, Hall2.
        apply Htot; [by apply Hall2 | by apply Hall1]. }
      f_equal. apply IH; [done|]. by apply Permutation_cons_inv in Hp.
Qed.

(** X17. The contract of [pop] on any well-formed stack, for a thread that
    can get a slot: on an empty stack it returns the empty pointer and
    leaves the stack empty; otherwise it returns the payload of the top node
    and leaves exactly the nodes below it, the stack still well formed. *)
Theorem pop_returns_top {A} t (s : state A) al :
  stack_inv s al -> can_acquire t s ->
  exists s',
    pop t s = Ret (snd <$> head al) s' /\
    stack_inv s' (tail al).
Proof.
  intros Hinv Hacq. destruct al as [|[a x] al].
  - destruct Hinv as [Hc Hn Hr Hd]. apply chain_head in Hc as Hnone.
    destruct (pop_empty t s Hnone Hacq) as (s' & Hpop & _ & Hhd & Hl & Hp).
    exists s'. split; [done|]. apply stack_inv_empty; [done|].
    destruct Hr as [? ?]. split; rewrite Hl; [done|].
    eapply Forall_impl; [done|]. intros b. cbn. by rewrite Hp.
  - destruct (pop_inv t s a x al Hinv Hacq) as (s' & ? & ? & _). by exists s'.
Qed.

Lemma pop_returns_top_witness :
  exists s',
    pop 0 (push 5 (push 7 (initial_state nat))) = Ret (Some 5) s' /\
    stack_inv s' [(0, 7)].
Proof.
  apply (pop_returns_top 0 (push 5 (push 7 (initial_state nat))) [(1, 5); (0, 7)]).
  - apply (push_inv (push 7 (initial_state nat)) [(0, 7)] 5).
    apply (push_inv (initial_state nat) [] 7).
    apply stack_inv_empty; [reflexivity | split; constructor].
  - right. by_computation.
Defined.

(** X18. The contract of [push] on a well-formed stack: the new node is one
    that was not allocated, it goes on top of the nodes the stack held,
    every node allocated before is kept as it was, and neither the hazard
    table nor the thread-local handles nor the reclamation list change
    ([push] needs no hazard slot). *)
Theorem push_adds_on_top {A} (s : state A) (x : A) al :
  stack_inv s al ->
  heap s !! new_node s = None /\
  stack_inv (push x s) ((new_node s, x) :: al) /\
  heap s ⊆ heap (push x s) /\
  hazard_pointers (push x s) = hazard_pointers s /\
  hazard (push x s) = hazard s /\
  nodes_to_reclaim (push x s) = nodes_to_reclaim s.
Proof.
  intros Hinv.
  assert (heap s !! new_node s = None) as Hnew by apply not_elem_of_dom, is_fresh.
  split; [done|]. split; [by apply push_inv|]. split; [|done].
  cbn. by apply insert_subseteq.
Qed.

Lemma push_adds_on_top_witness :
  heap (push 7 (initial_state nat)) !! new_node (push 7 (initial_state nat)) = None /\
  stack_inv (push 5 (push 7 (initial_state nat)))
    [(new_node (push 7 (initial_state nat)), 5); (0, 7)].
Proof.
  destruct (push_adds_on_top (push 7 (initial_state nat)) 5 [(0, 7)])
    as (H1 & H2 & _).
  - apply (push_inv (initial_state nat) [] 7).
    apply stack_inv_empty; [reflexivity | split; constructor].
  - by split.
Defined.

(** X19. With a strict total order (irreflexive, transitive, and two
    elements neither of which is less than the other are equal), the list
    [parallel_quick_sort] returns depends only on the elements of its input,
    not on their order: two inputs that are permutations of each other give
    the same output. *)
Theorem sort_depends_on_elements_only {T} (lt : T -> T -> bool) hw t
    (input1 input2 out1 out2 : list T) (g1 g2 g1' g2' : state (chunk_to_sort T))
    fuel1 fuel2 :
  (forall a, lt a a = false) ->
  (forall a b c, lt a b = true -> lt b c = true -> lt a c = true) ->
  (forall a b, lt a b = false -> lt b a = false -> a = b) ->
  reclaim_sound g1 -> can_acquire t g1 ->
  reclaim_sound g2 -> can_acquire t g2 ->
  input1 ≡ₚ input2 ->
  parallel_quick_sort lt fuel1 hw t input1 g1 = Ret out1 g1' ->
  parallel_quick_sort lt fuel2 hw t input2 g2 = Ret out2 g2' ->
  out1 = out2.
Proof.
  intros Hirr Htrans Htot Hr1 Hacq1 Hr2 Hacq2 Hperm Hrun1 Hrun2.
  destruct (sorts_to_exists lt input1) as [o1 Hs1].
  destruct (sorts_to_exists lt input2) as [o2 Hs2].
  rewrite (parallel_quick_sort_unique lt t hw _ _ _ Hs1 Hr1 Hacq1 _ _ _ Hrun1).
  rewrite (parallel_quick_sort_unique lt t hw _ _ _ Hs2 Hr2 Hacq2 _ _ _ Hrun2).
  apply (sorted_permutation_unique lt); [done | | |].
  - by eapply sorts_to_sorted.
  - by eapply sorts_to_sorted.
  - by rewrite <- (sorts_to_perm lt _ _ Hs1), <- (sorts_to_perm lt _ _ Hs2).
Qed.

Lemma sort_depends_on_elements_only_witness :
  [1; 2; 2; 3]%Z = [1; 2; 2; 3]%Z.
Proof.
  apply (sort_depends_on_elements_only Z.ltb 8 0
    [2; 3; 1; 2]%Z [3; 2; 2; 1]%Z [1; 2; 2; 3]%Z [1; 2; 2; 3]%Z
    (initial_state _) (initial_state _)
    (match parallel_quick_sort Z.ltb 17 8 0 [2; 3; 1; 2]%Z (initial_state _)
     with Ret _ g => g | _ => initial_state _ end)
    (match parallel_quick_sort Z.ltb 17 8 0 [3; 2; 2; 1]%Z (initial_state _)
     with Ret _ g => g | _ => initial_state _ end)
    17 17).
  - intros a. apply Z.ltb_irrefl.
  - intros a b c Hab%Z.ltb_lt Hbc%Z.ltb_lt. apply Z.ltb_lt. lia.
  - intros a b Hab%Z.ltb_ge Hba%Z.ltb_ge. lia.
  - split; constructor.
  - right. by_computation.
  - split; constructor.
  - right. by_computation.
  - by_computation.
  - vm_compute. reflexivity.
  - vm_compute. reflexivity.
Defined.

(** ** Acquisition comes first *)

(** C10. [pop] acquires the hazard slot of the calling thread before it
    looks at the head.  With every slot owned and none of its own, the thread
    gets the exception whatever the stack holds, so also on an empty stack,
    and nothing is changed.  On an empty stack [pop] returns the empty
    pointer exactly when the thread has a slot or can claim one; and a thread
    that had no slot holds one after that [pop], although the stack was
    empty: the free slot of lowest index, which now carries the id of the
    thread and no address. *)
Theorem pop_acquires_before_head {A} t (s : state A) :
  stack_head s = None ->
  (hazard s !! t = None -> table_exhausted s ->
   pop t s = Throw runtime_error_no_hazard_pointers s) /\
  (can_acquire t s <-> exists s', pop t s = Ret None s') /\
  (forall r s', pop t s = Ret r s' ->
     r = None /\
     exists i,
       hazard s' !! t = Some i /\
       (hazard s !! t = None ->
        i < max_hazard_pointers /\
        (exists q, hazard_pointers s !! i = Some (HazardPointer None q)) /\
        (forall j h, j < i -> hazard_pointers s !! j = Some h ->
           is_Some (hp_id h)) /\
        hazard_pointers s' !! i = Some (HazardPointer (Some t) None))) /\
  (forall s0 : state A,
     hazard s0 !! t = None -> table_exhausted s0 ->
     pop t s0 = Throw runtime_error_no_hazard_pointers s0).
Proof.
  intros Hh. split; [apply pop_exhausted|]. split; [|split].
  - split.
    + intros Hacq. destruct (pop_empty t s Hh Hacq) as (s' & ? & _). eauto.
    + intros [s' Hpop]. unfold pop in Hpop.
      destruct (get_hazard_pointer_for_current_thread t s) as [i s0| | |] eqn:E;
        try done.
      by eapply get_hazard_Ret.
  - intros r s' Hpop.
    destruct (pop_table t s r s' Hpop) as (i & s0 & Hget & Hmap & Htbl).
    destruct (pop_empty t s Hh (get_hazard_Ret _ _ _ _ Hget))
      as (s'' & Hpop' & _).
    rewrite Hpop in Hpop'. injection Hpop' as -> <-. split; [done|].
    exists i. rewrite Hmap.
    destruct (get_hazard_acquire t s (get_hazard_Ret _ _ _ _ Hget))
      as (i' & s0' & Hget' & Hti & _).
    rewrite Hget in Hget'. injection Hget' as <- <-. split; [done|].
    intros Ht.
    destruct (get_hazard_first t s i s0 Ht Hget)
      as (Hlt & (q & Hq) & Hmin & Htbl0 & _).
    split; [done|]. split; [eauto|]. split; [done|].
    rewrite Htbl, Htbl0, !list_lookup_alter_eq, Hq. done.
  - intros s0. apply pop_exhausted.
Qed.

Lemma pop_acquires_before_head_witness :
  pop 0 (exhausted_state nat)
  = Throw runtime_error_no_hazard_pointers (exhausted_state nat) /\
  pop 0 (initial_state nat) = Ret None idle_after /\
  hazard idle_after !! 0 = Some 0 /\
  hazard_pointers (initial_state nat) !! 0 = Some (HazardPointer None None) /\
  hazard_pointers idle_after !! 0 = Some (HazardPointer (Some 0) None).
Proof.
  assert (pop 0 (initial_state nat) = Ret None idle_after) as Hpop
    by (vm_compute; reflexivity).
  split.
  - apply (pop_acquires_before_head 0 (exhausted_state nat)).
    + reflexivity.
    + reflexivity.
    + by_computation.
  - split; [exact Hpop|].
    destruct (pop_acquires_before_head 0 (initial_state nat))
      as (_ & _ & Hacq & _); [reflexivity|].
    destruct (Hacq None idle_after Hpop) as (_ & i & Hi & Hslot).
    assert (i = 0) as -> by (vm_compute in Hi; congruence).
    destruct (Hslot eq_refl) as (_ & _ & _ & Hnow).
    split; [reflexivity|]. split; [reflexivity | exact Hnow].
Defined.
